(** * Ticket-sales aggregation: a shallow embedding of [visualize_sales.py]
      and of the SQL query of [upsell_rate_by_venue_chart.py]

    The Python functions [load_events], [load_sales], [classify_events],
    [build_show_map], [aggregate_show_sales] and [get_top_bottom] are
    transcribed as Rocq functions.  Python dictionaries whose iteration
    order the code relies on are insertion-ordered association lists;
    dictionaries that are only looked up are [gmap]s.  Python integers are [Z].  Python floats are
    rationals together with a rounding function [fl] (see [Py.Float]). *)

From Stdlib Require Import Ascii String QArith Qround Lqa.
From stdpp Require Import base list sorting strings gmap.

Local Open Scope Z_scope.

(** ** Python primitives used by the scripts *)
Module Py.

(** Exceptions that the modelled arithmetic can raise. *)
Inductive exn : Type :=
| ZeroDivisionError.

Inductive result (A : Type) : Type :=
| Ok (a : A)
| Raise (e : exn).
Arguments Ok {A} a.
Arguments Raise {A} e.

Definition bind {A B : Type} (r : result A) (k : A → result B) : result B :=
  match r with
  | Ok a => k a
  | Raise e => Raise e
  end.

(** A [for] loop that appends one computed element per iteration and stops
    at the first exception. *)
Fixpoint for_each {A B : Type} (f : A → result B) (l : list A) : result (list B) :=
  match l with
  | [] => Ok []
  | x :: l' => bind (f x) (λ y, bind (for_each f l') (λ ys, Ok (y :: ys)))
  end.

(** *** Floats

    A float is represented by the rational it denotes, and every float
    operation returns the rounding [fl] of its exact result.  All that is
    used of [fl] is what IEEE-754 round-to-nearest provides: it is monotone
    and leaves the representable numbers 0, 1 and 100 unchanged.

    The exponent range is unbounded: a quotient beyond the largest double,
    for which [int / int] raises [OverflowError], needs ticket counts of
    more than 300 digits and is not represented. *)
Class Float : Type := {
  fl : Q → Q;
  fl_mono : ∀ x y : Q, (x <= y)%Q → (fl x <= fl y)%Q;
  fl_0 : (fl 0 == 0)%Q;
  fl_1 : (fl 1 == 1)%Q;
  fl_100 : (fl 100 == 100)%Q
}.

(** Arithmetic without rounding error: the instance used for examples. *)
Definition exact_arith : Float :=
  {| fl := λ q, q;
     fl_mono := λ _ _ H, H;
     fl_0 := Qeq_refl 0;
     fl_1 := Qeq_refl 1;
     fl_100 := Qeq_refl 100 |}.

(** [a / b] on two [int]s. *)
Definition truediv `{F : Float} (a b : Z) : result Q :=
  if b =? 0 then Raise ZeroDivisionError
  else Ok (fl (inject_Z a / inject_Z b)%Q).

(** [x * n] for a float [x] and an [int] [n]. *)
Definition fmul_int `{F : Float} (x : Q) (n : Z) : Q := fl (x * inject_Z n)%Q.

(** *** Insertion-ordered dictionaries with string keys *)
Abbreviation dict V := (list (string * V)).

Definition keys {V : Type} (d : dict V) : list string := d.*1.

(** [d[k] = v]: an existing key keeps its position, a new key goes last. *)
Fixpoint setitem {V : Type} (k : string) (v : V) (d : dict V) : dict V :=
  match d with
  | [] => [(k, v)]
  | (k', v') :: d' =>
      if String.eqb k' k then (k, v) :: d' else (k', v') :: setitem k v d'
  end.

(** A dictionary has no repeated key: the association lists that stand
    for Python dictionaries are the ones that satisfy [wf]. *)
Definition wf {V : Type} (d : dict V) : Prop := NoDup (keys d).

(** *** Slices [l[:n]] and [l[k:]] for any integer bound *)
Definition slice_to {A : Type} (l : list A) (n : Z) : list A :=
  if 0 <=? n then take (Z.to_nat n) l
  else take (Z.to_nat (Z.of_nat (length l) + n)) l.

Definition slice_from {A : Type} (l : list A) (k : Z) : list A :=
  if 0 <=? k then drop (Z.to_nat k) l
  else drop (Z.to_nat (Z.of_nat (length l) + k)) l.

(** *** Stable sorting

    [before a b] says that [a] must come strictly earlier than [b].
    Elements that are not ordered either way keep their input order, which
    determines the output of any stable sort, [list.sort] and [sorted]
    included. *)
Section Sort.
Context {A : Type} (before : A → A → bool).

Fixpoint insort (x : A) (l : list A) : list A :=
  match l with
  | [] => [x]
  | y :: l' => if before y x then y :: insort x l' else x :: y :: l'
  end.

Definition stable_sort (l : list A) : list A := foldr insort [] l.
End Sort.

(** [l.sort(key=key, reverse=True)] with an integer key. *)
Definition sort_key_reverse {A : Type} (key : A → Z) (l : list A) : list A :=
  stable_sort (λ a b, key b <? key a) l.

(** [<] on [(str, int)] tuples. *)
Definition tuple_ltb (a b : string * Z) : bool :=
  String.ltb a.1 b.1 || (String.eqb a.1 b.1 && (a.2 <? b.2)).

Definition sorted (l : list (string * Z)) : list (string * Z) :=
  stable_sort tuple_ltb l.

(** *** Strings: [s.lower()] and [pat in s]

    Strings are sequences of bytes; [lower] maps the ASCII capitals and
    leaves every other byte alone, which is all that matters for finding an
    ASCII pattern. *)
Definition lower_ascii (c : ascii) : ascii :=
  let n := nat_of_ascii c in
  if ((65 <=? n) && (n <=? 90))%nat then ascii_of_nat (n + 32) else c.

Fixpoint lower (s : string) : string :=
  match s with
  | EmptyString => EmptyString
  | String c s' => String (lower_ascii c) (lower s')
  end.

Fixpoint contains (pat s : string) : bool :=
  String.prefix pat s ||
  match s with
  | EmptyString => false
  | String _ s' => contains pat s'
  end.

End Py.

(** ** [visualize_sales.py] *)
Module VisualizeSales.
Import Py.

(** The value stored per event id by [load_events], for a row whose cells
    are all there (see [Loaded] for the rows that lack some). *)
Module Event.
Record t : Type := { name : string; venue_id : string; event_dt : string }.
End Event.

(** One element of the list returned by [load_sales]. *)
Module Row.
Record t : Type := { event_id : string; sales_minute : string; tickets : Z }.
End Row.

(** One element of the list returned by [aggregate_show_sales]. *)
Module Show.
Record t : Type := {
  concert_id : string;
  venue_id : string;
  event_dt : string;
  concert_name : string;
  concert_tickets : Z;
  upsell_tickets : Z;
  total_tickets : Z;
  upsell_pct : Q;
  timeseries : list (string * Z)
}.
End Show.

(** *** 1. Load data

    The file and [csv.DictReader] are outside the model: a loader is given
    the rows that the reader yields before it ends.  [str.strip] and [int]
    are Python's own and are parameters; [int] answers [None] where Python
    raises [ValueError]. *)

(** A row of [events.csv] as [csv.DictReader] yields it: a [dict] from the
    field names of the header line to the cells of the row.  A cell that a
    short row lacks is there with the value [None]; what a long row has in
    excess is kept under the key [None], which no subscript of the loader
    reads. *)
Module EventsCsv.
Abbreviation t := (gmap string (option string)).
End EventsCsv.

(** A row of [ticket_sales.csv]. *)
Module SalesCsv.
Record t : Type := {
  event_id : string; sales_minute : string; tickets_sold_in_minute : string
}.
End SalesCsv.

(** What [load_events] raises on a row: [KeyError] from the subscript of a
    column that the header does not name, [AttributeError] from
    [None.strip()]. *)
Inductive load_exn : Type :=
| KeyError (key : string)
| AttributeError.

(** The value that [load_events] stores for an event: the name is a string,
    [venue_id] and [event_dt] are the cells as read, [None] included.  The
    key it is stored under is the [event_id] cell, which can be [None] as
    well. *)
Module Loaded.
Record t : Type := {
  name : string; venue_id : option string; event_dt : option string
}.
End Loaded.

(** [d[k] = v] in an insertion-ordered dictionary whose keys may be [None]:
    an existing key keeps its position, a new key goes last. *)
Fixpoint setitem_cell {V : Type} (k : option string) (v : V)
    (d : list (option string * V)) : list (option string * V) :=
  match d with
  | [] => [(k, v)]
  | (k', v') :: d' =>
      if decide (k' = k) then (k', v) :: d' else (k', v') :: setitem_cell k v d'
  end.

Section Load.
Variable strip : string → string.
Variable int : string → option Z.

(** One iteration of the loop of [load_events]: the key and the value of
    the assignment.  Python evaluates the dict display first, entry by
    entry, and the subscript of the target after it. *)
Definition read_event (row : EventsCsv.t) : load_exn + (option string * Loaded.t) :=
  match row !! "event_name" with
  | None => inl (KeyError "event_name")
  | Some None => inl AttributeError
  | Some (Some event_name) =>
      match row !! "venue_id" with
      | None => inl (KeyError "venue_id")
      | Some venue_id =>
          match row !! "event_dt" with
          | None => inl (KeyError "event_dt")
          | Some event_dt =>
              match row !! "event_id" with
              | None => inl (KeyError "event_id")
              | Some event_id =>
                  inr (event_id,
                       {| Loaded.name := strip event_name;
                          Loaded.venue_id := venue_id;
                          Loaded.event_dt := event_dt |})
              end
          end
      end
  end.

(** The loop, from the dictionary built so far; it stops at the first
    exception. *)
Fixpoint load_events_from (events : list (option string * Loaded.t))
    (rows : list EventsCsv.t) : load_exn + list (option string * Loaded.t) :=
  match rows with
  | [] => inr events
  | row :: rows' =>
      match read_event row with
      | inl e => inl e
      | inr (k, v) => load_events_from (setitem_cell k v events) rows'
      end
  end.

Definition load_events (rows : list EventsCsv.t) :
    load_exn + list (option string * Loaded.t) :=
  load_events_from [] rows.

(** [None] when some [int(...)] raises: no list is returned then. *)
Fixpoint load_sales (rows : list SalesCsv.t) : option (list Row.t) :=
  match rows with
  | [] => Some []
  | row :: rows' =>
      match int (SalesCsv.tickets_sold_in_minute row) with
      | None => None
      | Some tickets =>
          match load_sales rows' with
          | None => None
          | Some loaded =>
              Some ({| Row.event_id := SalesCsv.event_id row;
                       Row.sales_minute := SalesCsv.sales_minute row;
                       Row.tickets := tickets |} :: loaded)
          end
      end
  end.

End Load.

(** *** 2. Classify and link *)

Definition is_concert (e : Event.t) : bool :=
  contains "super awesome tour" (lower (Event.name e)).

Definition classify_step (acc : dict Event.t * dict Event.t)
    (item : string * Event.t) : dict Event.t * dict Event.t :=
  let '(concerts, upsells) := acc in
  let '(eid, e) := item in
  if is_concert e then (setitem eid e concerts, upsells)
  else (concerts, setitem eid e upsells).

Definition classify_events (events : dict Event.t) : dict Event.t * dict Event.t :=
  fold_left classify_step events ([], []).

(** The index [concert_by_vd] of [build_show_map]. *)
Definition index_concerts (concerts : dict Event.t) : gmap (string * string) string :=
  fold_left (λ idx '(cid, c), <[(Event.venue_id c, Event.event_dt c) := cid]> idx)
            concerts ∅.

Definition link_upsell (concert_by_vd : gmap (string * string) string)
    (event_to_concert : gmap string string) (item : string * Event.t) : gmap string string :=
  let '(uid, u) := item in
  let key := (Event.venue_id u, Event.event_dt u) in
  match concert_by_vd !! key with
  | Some cid => <[uid := cid]> event_to_concert
  | None => event_to_concert
  end.

Definition build_show_map (concerts upsells : dict Event.t) : gmap string string :=
  let concert_by_vd := index_concerts concerts in
  let event_to_concert := fold_left (λ m cid, <[cid := cid]> m) (keys concerts) ∅ in
  fold_left (link_upsell concert_by_vd) upsells event_to_concert.

(** *** 3. Aggregate *)

(** The three [defaultdict]s filled by the loop over the sale rows. *)
Record accumulators : Type := {
  show_concert_tix : gmap string Z;
  show_upsell_tix : gmap string Z;
  show_timeseries : gmap string (list (string * Z))
}.

Definition no_sales : accumulators :=
  {| show_concert_tix := ∅; show_upsell_tix := ∅; show_timeseries := ∅ |}.

(** [d[k] += n] on a [defaultdict(int)]. *)
Definition add_to (k : string) (n : Z) (d : gmap string Z) : gmap string Z :=
  <[k := default 0 (d !! k) + n]> d.

(** [d[k].append(x)] on a [defaultdict(list)]. *)
Definition append_to {A : Type} (k : string) (x : A) (d : gmap string (list A)) :
    gmap string (list A) :=
  <[k := default [] (d !! k) ++ [x]]> d.

(** One iteration of [for row in sales_rows]. *)
Definition record_sale (event_to_concert : gmap string string)
    (acc : accumulators) (row : Row.t) : accumulators :=
  let eid := Row.event_id row in
  match event_to_concert !! eid with
  | None => acc
  | Some cid =>
      let tix := Row.tickets row in
      {| show_concert_tix :=
           if String.eqb eid cid then add_to cid tix (show_concert_tix acc)
           else show_concert_tix acc;
         show_upsell_tix :=
           if String.eqb eid cid then show_upsell_tix acc
           else add_to cid tix (show_upsell_tix acc);
         show_timeseries :=
           append_to cid (Row.sales_minute row, tix) (show_timeseries acc) |}
  end.

Section Aggregate.
Context `{F : Float}.

(** One iteration of [for cid, c in concerts.items()]. *)
Definition make_show (acc : accumulators) (item : string * Event.t) : result Show.t :=
  let '(cid, c) := item in
  let ct := default 0 (show_concert_tix acc !! cid) in
  let ut := default 0 (show_upsell_tix acc !! cid) in
  let total := ct + ut in
  bind (if 0 <? total
        then bind (truediv ut total) (λ q, Ok (fmul_int q 100))
        else Ok 0%Q)
       (λ pct,
        Ok {| Show.concert_id := cid;
              Show.venue_id := Event.venue_id c;
              Show.event_dt := Event.event_dt c;
              Show.concert_name := Event.name c;
              Show.concert_tickets := ct;
              Show.upsell_tickets := ut;
              Show.total_tickets := total;
              Show.upsell_pct := pct;
              Show.timeseries := sorted (default [] (show_timeseries acc !! cid)) |}).

Definition aggregate_show_sales (sales_rows : list Row.t)
    (event_to_concert : gmap string string)
    (concerts events : dict Event.t) : result (list Show.t) :=
  let acc := fold_left (record_sale event_to_concert) sales_rows no_sales in
  bind (for_each (make_show acc) concerts)
       (λ shows, Ok (sort_key_reverse Show.total_tickets shows)).

End Aggregate.

(** *** 4. Identify top / bottom *)

Definition get_top_bottom (shows : list Show.t) (n : Z) : list Show.t * list Show.t :=
  let with_sales := filter (λ s, 0 < Show.total_tickets s) shows in
  let top := slice_to with_sales n in
  let bottom := slice_from with_sales (- n) in
  (top, bottom).

(** *** 5. Visualizations *)

(** The loop of [fig2_cumulative_timeseries] that fills [cumulative] from the
    sorted [ts_data]; the pair is ([running], [cumulative]). *)
Definition cumulative {T : Type} (ts_data : list (T * Z)) : list Z :=
  (fold_left (λ '(running, cumulative) '(_, v),
                (running + v, cumulative ++ [running + v]))
             ts_data (0, [])).2.

(** *** 6. Written summary *)

(** The ratio that insight 1 of [write_summary] prints, with the two reads
    that the same [format] call makes first: [top[0]], then [bottom[-1]].
    [None] stands for the [IndexError] of an empty list. *)
Definition insight_ratio `{F : Float} (top bottom : list Show.t) : option (result Q) :=
  match head top with
  | None => None
  | Some first =>
      match last bottom with
      | None => None
      | Some lowest =>
          Some (if Show.total_tickets lowest =? 0 then Ok 0%Q
                else truediv (Show.total_tickets first) (Show.total_tickets lowest))
      end
  end.

(** *** Main

    What [main] computes between loading the two tables and drawing: the
    shows, and the top and bottom lists for [n = 2]. *)
Definition main `{F : Float} (events : dict Event.t) (sales : list Row.t) :
    result (list Show.t * (list Show.t * list Show.t)) :=
  let '(concerts, upsells) := classify_events events in
  let event_to_concert := build_show_map concerts upsells in
  bind (aggregate_show_sales sales event_to_concert concerts events)
       (λ shows, Ok (shows, get_top_bottom shows 2)).

End VisualizeSales.

(** ** The query of [upsell_rate_by_venue_chart.py]

    [QUERY] is transcribed clause by clause over the two tables that
    [load_csv_to_table] fills.  A table is the list of its rows and [NULL] is
    [None].  The ticket column holds the integers that [load_sales] parses,
    and [INTEGER] values are [Z]: a count or a [SUM] beyond 64 bits, which
    SQLite does not keep as an integer, is not represented.  [REAL] values
    are the rationals they denote, with the rounding of [Real]. *)
Module UpsellRateByVenueChart.
Import Py.

(** A row of table [events]. *)
Module Events.
Record t : Type := {
  event_id : string; event_name : string; venue_id : string; event_dt : string
}.
End Events.

(** A row of table [ticket_sales]. *)
Module TicketSales.
Record t : Type := {
  event_id : string; sales_minute : string; tickets_sold_in_minute : Z
}.
End TicketSales.

(** A row of the CTE [matched_upsells]. *)
Module MatchedUpsells.
Record t : Type := { event_id : string; event_name : string; venue_id : string }.
End MatchedUpsells.

(** A row of the CTE [concert_sales]. *)
Module ConcertSales.
Record t : Type := { venue_id : string; concert_tickets : Z }.
End ConcertSales.

(** A row of the CTE [upsell_sales]. *)
Module UpsellSales.
Record t : Type := { venue_id : string; upsell_options : Z; upsell_tickets : Z }.
End UpsellSales.

(** A row of the result. *)
Module Out.
Record t : Type := {
  venue_id : string;
  concert_tickets : Z;
  upsell_tickets : Z;
  upsell_options : Z;
  upsell_rate_pct : option Q
}.
End Out.

(** [LOWER(event_name) LIKE '%super awesome tour%'] *)
Definition like_tour (event_name : string) : bool :=
  contains "super awesome tour" (lower event_name).

Definition concerts (events : list Events.t) : list Events.t :=
  filter (λ e, like_tour (Events.event_name e) = true) events.

Definition upsells (events : list Events.t) : list Events.t :=
  filter (λ e, like_tour (Events.event_name e) = false) events.

Definition matched_upsells (events : list Events.t) : list MatchedUpsells.t :=
  u ← upsells events;
  c ← concerts events;
  if String.eqb (Events.venue_id u) (Events.venue_id c)
     && String.eqb (Events.event_dt u) (Events.event_dt c)
  then [ {| MatchedUpsells.event_id := Events.event_id u;
            MatchedUpsells.event_name := Events.event_name u;
            MatchedUpsells.venue_id := Events.venue_id c |} ]
  else [].

(** [SUM] over a non-empty group of integers. *)
Definition sql_sum (l : list Z) : Z := foldr Z.add 0 l.

(** The groups of [GROUP BY]: the distinct keys, in order of first
    appearance (SQL leaves the order of groups open). *)
Definition group_keys (l : list string) : list string := remove_dups l.

Definition concert_sales (events : list Events.t) (ticket_sales : list TicketSales.t) :
    list ConcertSales.t :=
  let joined :=
    c ← concerts events;
    ts ← ticket_sales;
    if String.eqb (Events.event_id c) (TicketSales.event_id ts)
    then [ (Events.venue_id c, TicketSales.tickets_sold_in_minute ts) ]
    else [] in
  (λ v, {| ConcertSales.venue_id := v;
           ConcertSales.concert_tickets :=
             sql_sum (filter (λ r, r.1 = v) joined).*2 |})
  <$> group_keys joined.*1.

Definition upsell_sales (events : list Events.t) (ticket_sales : list TicketSales.t) :
    list UpsellSales.t :=
  let joined :=
    mu ← matched_upsells events;
    ts ← ticket_sales;
    if String.eqb (MatchedUpsells.event_id mu) (TicketSales.event_id ts)
    then [ (MatchedUpsells.venue_id mu,
            (MatchedUpsells.event_name mu, TicketSales.tickets_sold_in_minute ts)) ]
    else [] in
  (λ v, let grp := (filter (λ r, r.1 = v) joined).*2 in
        {| UpsellSales.venue_id := v;
           UpsellSales.upsell_options := Z.of_nat (length (remove_dups grp.*1));
           UpsellSales.upsell_tickets := sql_sum grp.*2 |})
  <$> group_keys joined.*1.

(** *** [REAL] arithmetic and [ROUND]

    A [REAL] is an IEEE-754 double, represented by the rational it denotes;
    an operation on [REAL]s returns the rounding [real] of its exact result.
    All that is used of [real] is what round-to-nearest provides: it is
    monotone, leaves 0 unchanged, and from 1 upwards is never more than one
    part in 2^53 below its argument.

    [ROUND(x, 2)] is SQLite's own function.  It prints the double with two
    decimals and reads the text back, so that its result at or near a tie,
    and on large values, depends on that conversion
    ([ROUND(1562500000003.125, 2)] can be 1562500000003.12): the function is
    not computed here.  All that is used of it: it sends 0 to 0, a
    non-negative value to a non-negative value, and a value from 99.999
    upwards to at least 100; and on a value of at most 10^9 in magnitude,
    where the conversion has digits to spare, its result is the double of a
    number of hundredths that is within a hundredth of the value. *)
Class Real : Type := {
  real : Q → Q;
  real_mono : ∀ x y : Q, (x <= y)%Q → (real x <= real y)%Q;
  real_0 : (real 0 == 0)%Q;
  real_error : ∀ x : Q, (1 <= x)%Q → (x * (1 - (1 # 9007199254740992)) <= real x)%Q;
  round2 : Q → Q;
  round2_0 : ∀ x : Q, (x == 0)%Q → (round2 x == 0)%Q;
  round2_nonneg : ∀ x : Q, (0 <= x)%Q → (0 <= round2 x)%Q;
  round2_100 : ∀ x : Q, (99999 # 1000 <= x)%Q → (100 <= round2 x)%Q;
  round2_hundredths : ∀ x : Q,
    (- (1000000000) <= x)%Q → (x <= 1000000000)%Q →
    ∃ k : Z, (round2 x == real (inject_Z k / 100))%Q ∧
             (x - (1 # 100) <= inject_Z k / 100)%Q ∧
             (inject_Z k / 100 <= x + (1 # 100))%Q
}.

(** The nearest hundredth, halves away from zero. *)
Definition nearest_hundredth (x : Q) : Q :=
  let y := (x * 100)%Q in
  let n := if Qle_bool 0 y then Qfloor (y + (1 # 2)) else Qceiling (y - (1 # 2)) in
  (inject_Z n / 100)%Q.

(** Arithmetic without rounding error, and [ROUND] to the nearest
    hundredth: the instance used for examples. *)
Definition exact_real : Real.
Proof.
  refine {| real := λ q, q; round2 := nearest_hundredth |}.
  - intros x y Hxy. exact Hxy.
  - reflexivity.
  - intros x Hx. lra.
  - intros x Hx. unfold nearest_hundredth.
    assert (x * 100 == 0)%Q as Hy by (rewrite Hx; reflexivity).
    rewrite (proj2 (Qle_bool_iff 0 (x * 100))) by (rewrite Hy; apply Qle_refl).
    rewrite Hy. reflexivity.
  - intros x Hx. unfold nearest_hundredth.
    rewrite (proj2 (Qle_bool_iff 0 (x * 100))) by lra.
    assert (0 ≤ Qfloor (x * 100 + (1 # 2))) as Hfloor.
    { rewrite <- (Qfloor_Z 0). apply Qfloor_resp_le. change (inject_Z 0) with 0%Q. lra. }
    apply Qle_shift_div_l; [reflexivity|]. rewrite Qmult_0_l.
    change 0%Q with (inject_Z 0). by rewrite <- Zle_Qle.
  - intros x Hx. unfold nearest_hundredth.
    rewrite (proj2 (Qle_bool_iff 0 (x * 100))) by lra.
    assert (10000 ≤ Qfloor (x * 100 + (1 # 2))) as Hfloor.
    { rewrite <- (Qfloor_Z 10000). apply Qfloor_resp_le.
      change (inject_Z 10000) with (10000 # 1)%Q. lra. }
    apply Qle_shift_div_l; [reflexivity|].
    change (100 * 100)%Q with (inject_Z 10000). by rewrite <- Zle_Qle.
  - intros x _ _. unfold nearest_hundredth.
    destruct (Qle_bool 0 (x * 100)) eqn:Hsign.
    + exists (Qfloor (x * 100 + (1 # 2))). split; [reflexivity|].
      pose proof (Qfloor_le (x * 100 + (1 # 2))) as Hlo.
      pose proof (Qlt_floor (x * 100 + (1 # 2))) as Hhi.
      rewrite inject_Z_plus in Hhi.
      set (n := inject_Z (Qfloor (x * 100 + (1 # 2)))) in *.
      change (inject_Z 1) with 1%Q in Hhi.
      unfold Qdiv. change (/ 100)%Q with (1 # 100)%Q.
      split; lra.
    + exists (Qceiling (x * 100 - (1 # 2))). split; [reflexivity|].
      pose proof (Qle_ceiling (x * 100 - (1 # 2))) as Hlo.
      pose proof (Qceiling_lt (x * 100 - (1 # 2))) as Hhi.
      unfold Z.sub in Hhi. rewrite inject_Z_plus in Hhi.
      set (n := inject_Z (Qceiling (x * 100 - (1 # 2)))) in *.
      change (inject_Z (Z.opp 1)) with (-1 # 1)%Q in Hhi.
      unfold Qdiv. change (/ 100)%Q with (1 # 100)%Q.
      split; lra.
Defined.

(** An [INTEGER] operand of a [REAL] operation is converted first. *)
Definition real_of_int `{R : Real} (n : Z) : Q := real (inject_Z n).

(** [x * y] on [REAL]s. *)
Definition sql_mul `{R : Real} (x y : Q) : Q := real (x * y)%Q.

(** [x / y] with a [REAL] numerator and an [INTEGER] divisor: [NULL] when
    the divisor is zero (an integer converts to 0.0 only if it is 0). *)
Definition sql_div `{R : Real} (x : Q) (y : Z) : option Q :=
  if y =? 0 then None else Some (real (x / real_of_int y)%Q).

(** [cs LEFT JOIN upsell_sales us ON cs.venue_id = us.venue_id]. *)
Definition left_join (css : list ConcertSales.t) (uss : list UpsellSales.t) :
    list (ConcertSales.t * option UpsellSales.t) :=
  cs ← css;
  match filter (λ us, UpsellSales.venue_id us = ConcertSales.venue_id cs) uss with
  | [] => [ (cs, None) ]
  | matches => (λ us, (cs, Some us)) <$> matches
  end.

(** The [SELECT] list, for one joined row. *)
Definition select `{R : Real} (r : ConcertSales.t * option UpsellSales.t) : Out.t :=
  let '(cs, us) := r in
  let upsell_tickets := default 0 (UpsellSales.upsell_tickets <$> us) in
  {| Out.venue_id := ConcertSales.venue_id cs;
     Out.concert_tickets := ConcertSales.concert_tickets cs;
     Out.upsell_tickets := upsell_tickets;
     Out.upsell_options := default 0 (UpsellSales.upsell_options <$> us);
     Out.upsell_rate_pct :=
       round2 <$> sql_div (sql_mul (real_of_int upsell_tickets) 100)
                          (ConcertSales.concert_tickets cs) |}.

(** [<] on nullable [REAL]s: [NULL] sorts below every number. *)
Definition null_ltb (a b : option Q) : bool :=
  match a, b with
  | _, None => false
  | None, Some _ => true
  | Some x, Some y => negb (Qle_bool y x)
  end.

(** [ORDER BY upsell_options DESC, upsell_rate_pct DESC]: does [a] come
    strictly before [b]? *)
Definition order_by (a b : Out.t) : bool :=
  (Out.upsell_options b <? Out.upsell_options a)
  || ((Out.upsell_options a =? Out.upsell_options b)
      && null_ltb (Out.upsell_rate_pct b) (Out.upsell_rate_pct a)).

(** The final [SELECT].  Rows that [ORDER BY] does not separate are left in
    the order of the join (SQL leaves their order open). *)
Definition query `{R : Real} (events : list Events.t)
    (ticket_sales : list TicketSales.t) : list Out.t :=
  let joined := left_join (concert_sales events ticket_sales)
                          (upsell_sales events ticket_sales) in
  let kept := filter (λ r, 0 < ConcertSales.concert_tickets r.1) joined in
  stable_sort order_by (select <$> kept).

End UpsellRateByVenueChart.

(** * Vocabulary of the statements *)

(** Descending order of the keys. *)
Definition descending {A : Type} (key : A → Z) : relation A := λ a b, key b ≤ key a.

Import Py VisualizeSales.

(** [sum(f(x) for x in l)] *)
Definition sumZ {A : Type} (f : A → Z) (l : list A) : Z :=
  foldr (λ x acc, f x + acc) 0 l.

(** The (venue, date) key on which upsells are matched to concerts. *)
Definition vd (e : Event.t) : string * string := (Event.venue_id e, Event.event_dt e).

(** The mapping sends the row's event to concert [cid]. *)
Definition credited (event_to_concert : gmap string string) (cid : string)
    (row : Row.t) : bool :=
  bool_decide (event_to_concert !! Row.event_id row = Some cid).

(** What a row adds to the concert-ticket total of [cid]. *)
Definition concert_part (event_to_concert : gmap string string) (cid : string)
    (row : Row.t) : Z :=
  if credited event_to_concert cid row && String.eqb (Row.event_id row) cid
  then Row.tickets row else 0.

(** What a row adds to the upsell-ticket total of [cid]. *)
Definition upsell_part (event_to_concert : gmap string string) (cid : string)
    (row : Row.t) : Z :=
  if credited event_to_concert cid row && negb (String.eqb (Row.event_id row) cid)
  then Row.tickets row else 0.

(** The row's event resolves, through the mapping, to one of the concerts. *)
Definition resolves (event_to_concert : gmap string string) (concerts : dict Event.t)
    (row : Row.t) : bool :=
  match event_to_concert !! Row.event_id row with
  | Some cid => bool_decide (cid ∈ keys concerts)
  | None => false
  end.

(** The record that one iteration of the show loop appends, given that its
    division succeeds. *)
Definition show_of `{F : Float} (acc : accumulators) (item : string * Event.t) : Show.t :=
  let ct := default 0 (show_concert_tix acc !! item.1) in
  let ut := default 0 (show_upsell_tix acc !! item.1) in
  {| Show.concert_id := item.1;
     Show.venue_id := Event.venue_id item.2;
     Show.event_dt := Event.event_dt item.2;
     Show.concert_name := Event.name item.2;
     Show.concert_tickets := ct;
     Show.upsell_tickets := ut;
     Show.total_tickets := ct + ut;
     Show.upsell_pct :=
       if 0 <? ct + ut
       then fl (fl (inject_Z ut / inject_Z (ct + ut)) * inject_Z 100)%Q
       else 0%Q;
     Show.timeseries := sorted (default [] (show_timeseries acc !! item.1)) |}.

(** *** Sample data

    One tour night with an upsell at the same venue and time, an upsell
    without a concert, a concert without sales, and a sale for an event
    that is not in the event table. *)
Definition ex_events : dict Event.t :=
  [ ("A", {| Event.name := "Neon Harbor - Super Awesome Tour";
             Event.venue_id := "1"; Event.event_dt := "2024-01-01T20:00" |});
    ("B", {| Event.name := "VIP Lounge";
             Event.venue_id := "1"; Event.event_dt := "2024-01-01T20:00" |});
    ("C", {| Event.name := "Meet and Greet";
             Event.venue_id := "2"; Event.event_dt := "2024-01-02T20:00" |});
    ("D", {| Event.name := "SUPER AWESOME TOUR night";
             Event.venue_id := "3"; Event.event_dt := "2024-01-03T20:00" |}) ].

Definition ex_concerts : dict Event.t := (classify_events ex_events).1.
Definition ex_upsells : dict Event.t := (classify_events ex_events).2.
Definition ex_map : gmap string string := build_show_map ex_concerts ex_upsells.

Definition ex_row (eid minute : string) (tix : Z) : Row.t :=
  {| Row.event_id := eid; Row.sales_minute := minute; Row.tickets := tix |}.

Definition ex_rows : list Row.t :=
  [ ex_row "A" "m2" 10; ex_row "B" "m1" 5; ex_row "C" "m1" 7;
    ex_row "Z" "m1" 9; ex_row "A" "m1" 20 ].

Definition ex_show_A : Show.t :=
  {| Show.concert_id := "A";
     Show.venue_id := "1";
     Show.event_dt := "2024-01-01T20:00";
     Show.concert_name := "Neon Harbor - Super Awesome Tour";
     Show.concert_tickets := 30;
     Show.upsell_tickets := 5;
     Show.total_tickets := 35;
     Show.upsell_pct := 500 # 35;
     Show.timeseries := [("m1", 5); ("m1", 20); ("m2", 10)] |}.

Definition ex_show_D : Show.t :=
  {| Show.concert_id := "D";
     Show.venue_id := "3";
     Show.event_dt := "2024-01-03T20:00";
     Show.concert_name := "SUPER AWESOME TOUR night";
     Show.concert_tickets := 0;
     Show.upsell_tickets := 0;
     Show.total_tickets := 0;
     Show.upsell_pct := 0;
     Show.timeseries := [] |}.

(** *** The venue chart query *)






(** [upsell_tickets * 100.0 / concert_tickets] in [REAL] arithmetic. *)
Definition percent_of_concert_tickets `{R : UpsellRateByVenueChart.Real}
    (upsell_tickets concert_tickets : Z) : Q :=
  UpsellRateByVenueChart.real
    (UpsellRateByVenueChart.real
       (UpsellRateByVenueChart.real (inject_Z upsell_tickets) * 100)
     / UpsellRateByVenueChart.real (inject_Z concert_tickets))%Q.

(** The rate over the concert tickets alone: that percentage through
    [ROUND(_, 2)]. *)
Definition rate_of_concert_tickets `{R : UpsellRateByVenueChart.Real}
    (upsell_tickets concert_tickets : Z) : Q :=
  UpsellRateByVenueChart.round2
    (percent_of_concert_tickets upsell_tickets concert_tickets).


(** Sample tables: one venue, 30 concert tickets and 5 upsell tickets. *)
Definition ex_table_events : list UpsellRateByVenueChart.Events.t :=
  [ {| UpsellRateByVenueChart.Events.event_id := "A";
       UpsellRateByVenueChart.Events.event_name := "Neon Harbor - Super Awesome Tour";
       UpsellRateByVenueChart.Events.venue_id := "1";
       UpsellRateByVenueChart.Events.event_dt := "2024-01-01T20:00" |};
    {| UpsellRateByVenueChart.Events.event_id := "B";
       UpsellRateByVenueChart.Events.event_name := "VIP Lounge";
       UpsellRateByVenueChart.Events.venue_id := "1";
       UpsellRateByVenueChart.Events.event_dt := "2024-01-01T20:00" |} ].

Definition ex_table_row (eid minute : string) (tix : Z) :
    UpsellRateByVenueChart.TicketSales.t :=
  {| UpsellRateByVenueChart.TicketSales.event_id := eid;
     UpsellRateByVenueChart.TicketSales.sales_minute := minute;
     UpsellRateByVenueChart.TicketSales.tickets_sold_in_minute := tix |}.

Definition ex_table_sales : list UpsellRateByVenueChart.TicketSales.t :=
  [ ex_table_row "A" "m1" 10; ex_table_row "A" "m2" 20; ex_table_row "B" "m1" 5 ].

Definition ex_out : UpsellRateByVenueChart.Out.t :=
  {| UpsellRateByVenueChart.Out.venue_id := "1";
     UpsellRateByVenueChart.Out.concert_tickets := 30;
     UpsellRateByVenueChart.Out.upsell_tickets := 5;
     UpsellRateByVenueChart.Out.upsell_options := 1;
     UpsellRateByVenueChart.Out.upsell_rate_pct := Some (1667 # 100) |}.

(** *** Further vocabulary *)

(** The row has the four columns, and a name that is not [None]. *)
Definition readable (row : EventsCsv.t) : Prop :=
  (∃ event_name, row !! "event_name" = Some (Some event_name)) ∧
  is_Some (row !! "venue_id") ∧ is_Some (row !! "event_dt") ∧
  is_Some (row !! "event_id").

(** [e] is the event built from the row: the name stripped, venue and date
    copied. *)
Definition built_from (strip : string → string) (row : EventsCsv.t) (e : Loaded.t) :
    Prop :=
  ∃ event_name,
    row !! "event_name" = Some (Some event_name) ∧
    Loaded.name e = strip event_name ∧
    row !! "venue_id" = Some (Loaded.venue_id e) ∧
    row !! "event_dt" = Some (Loaded.event_dt e).

(** The (minute, tickets) pairs of the rows that the mapping sends to [cid],
    in input order. *)
Definition credited_sales (event_to_concert : gmap string string) (cid : string)
    (rows : list Row.t) : list (string * Z) :=
  (λ row, (Row.sales_minute row, Row.tickets row)) <$>
  filter (λ row, event_to_concert !! Row.event_id row = Some cid) rows.

(** The running totals of a series, starting from [running]. *)
Fixpoint running_totals {T : Type} (running : Z) (ts_data : list (T * Z)) : list Z :=
  match ts_data with
  | [] => []
  | (_, v) :: rest => (running + v) :: running_totals (running + v) rest
  end.

(** The shows with sales, as [get_top_bottom] selects them. *)
Abbreviation with_sales shows :=
  (filter (λ s : Show.t, 0 < Show.total_tickets s) shows).

(** Sample rows of the two files; the second row for "A" replaces the
    first, the row for "B" is short, and one ticket count does not parse. *)
Definition ex_csv_row (event_id : string) (event_name : string)
    (venue_id event_dt : option string) : EventsCsv.t :=
  <["event_id" := Some event_id]>
    (<["event_name" := Some event_name]>
       (<["venue_id" := venue_id]> (<["event_dt" := event_dt]> ∅))).

Definition ex_csv_events : list EventsCsv.t :=
  [ ex_csv_row "A" "draft" (Some "0") (Some "2024-01-01T19:00");
    ex_csv_row "B" "VIP Lounge" None None;
    ex_csv_row "A" "Neon Harbor - Super Awesome Tour" (Some "1")
               (Some "2024-01-01T20:00") ].

Definition ex_csv_sales : list SalesCsv.t :=
  [ {| SalesCsv.event_id := "A"; SalesCsv.sales_minute := "m1";
       SalesCsv.tickets_sold_in_minute := "7" |};
    {| SalesCsv.event_id := "B"; SalesCsv.sales_minute := "m2";
       SalesCsv.tickets_sold_in_minute := "seven" |} ].

(** A stand-in for [int] on the sample: it reads "7" only. *)
Definition ex_int (s : string) : option Z :=
  if String.eqb s "7" then Some 7 else None.

(** Two concerts with one venue and date, and one upsell there. *)
Definition ex_twin_event (name : string) : Event.t :=
  {| Event.name := name; Event.venue_id := "1";
     Event.event_dt := "2024-01-01T20:00" |}.

Definition ex_twin_concerts : dict Event.t :=
  [ ("A", ex_twin_event "Super Awesome Tour"); ("A2", ex_twin_event "Super Awesome Tour, late") ].

Definition ex_twin_upsells : dict Event.t := [ ("B", ex_twin_event "VIP Lounge") ].

(** Sample tables with a second venue that sells no upsell. *)
Definition ex_table2_events : list UpsellRateByVenueChart.Events.t :=
  ex_table_events ++
  [ {| UpsellRateByVenueChart.Events.event_id := "E";
       UpsellRateByVenueChart.Events.event_name := "Super Awesome Tour - second city";
       UpsellRateByVenueChart.Events.venue_id := "2";
       UpsellRateByVenueChart.Events.event_dt := "2024-01-05T20:00" |} ].

Definition ex_table2_sales : list UpsellRateByVenueChart.TicketSales.t :=
  ex_table_sales ++ [ ex_table_row "E" "m1" 40 ].

Definition ex_out2 : UpsellRateByVenueChart.Out.t :=
  {| UpsellRateByVenueChart.Out.venue_id := "2";
     UpsellRateByVenueChart.Out.concert_tickets := 40;
     UpsellRateByVenueChart.Out.upsell_tickets := 0;
     UpsellRateByVenueChart.Out.upsell_options := 0;
     UpsellRateByVenueChart.Out.upsell_rate_pct := Some (0 # 100) |}.

(** * Properties *)

(** ** Stable sorting *)
Section SortFacts.
Context {A : Type}.
Implicit Types (before : A → A → bool) (l : list A).

Lemma insort_perm before x l : Py.insort before x l ≡ₚ x :: l.
Proof.
  induction l as [|y l IH]; simpl; [done|].
  destruct (before y x); [|done].
  rewrite IH. apply Permutation_swap.
Qed.

Lemma stable_sort_perm before l : Py.stable_sort before l ≡ₚ l.
Proof.
  induction l as [|x l IH]; simpl; [done|].
  rewrite insort_perm. by f_equiv.
Qed.

Lemma sort_key_reverse_perm (key : A → Z) l : Py.sort_key_reverse key l ≡ₚ l.
Proof. apply stable_sort_perm. Qed.

Lemma insort_descending (key : A → Z) x l :
  StronglySorted (descending key) l →
  StronglySorted (descending key) (Py.insort (λ a b, key b <? key a) x l).
Proof.
  induction 1 as [|y l Hl IH Hy]; simpl.
  - repeat constructor.
  - destruct (key x <? key y) eqn:Hxy.
    + constructor; [exact IH|].
      rewrite insort_perm. constructor; [|exact Hy].
      unfold descending. lia.
    + constructor; [by constructor|].
      constructor; [unfold descending; lia|].
      eapply Forall_impl; [exact Hy|].
      unfold descending. intros z Hz. lia.
Qed.

Lemma sort_key_reverse_sorted (key : A → Z) l :
  StronglySorted (descending key) (Py.sort_key_reverse key l).
Proof.
  unfold Py.sort_key_reverse, Py.stable_sort.
  induction l as [|x l IH]; simpl; [constructor|].
  by apply insort_descending.
Qed.

Lemma StronglySorted_sublist (R : relation A) l1 l2 :
  l1 `sublist_of` l2 → StronglySorted R l2 → StronglySorted R l1.
Proof.
  induction 1 as [|x l1 l2 Hsub IH|x l1 l2 Hsub IH]; intros Hs.
  - constructor.
  - apply StronglySorted_inv in Hs as [Hs Hx].
    constructor; [by apply IH|].
    rewrite Forall_forall in Hx |- *.
    intros y Hy. apply Hx. by eapply elem_of_sublist.
  - apply StronglySorted_inv in Hs as [Hs _]. by apply IH.
Qed.

Lemma StronglySorted_lookup (R : relation A) l i j a b :
  StronglySorted R l → (i < j)%nat → l !! i = Some a → l !! j = Some b → R a b.
Proof.
  intros Hs. revert i j.
  induction Hs as [|x l Hs IH Hx]; intros i j Hij Hi Hj; [done|].
  destruct j as [|j]; [lia|]. simpl in Hj.
  destruct i as [|i]; simpl in Hi.
  - injection Hi as ->.
    rewrite Forall_forall in Hx. apply Hx.
    eapply list_elem_of_lookup_2. exact Hj.
  - eapply IH; [|exact Hi|exact Hj]. lia.
Qed.

End SortFacts.

(** ** Lists, sums and dictionaries *)
Section ListFacts.
Context {A B : Type}.

Lemma filter_none (P : A → Prop) `{∀ x, Decision (P x)} (l : list A) :
  (∀ x, x ∈ l → ¬ P x) → filter P l = [].
Proof.
  induction l as [|x l IH]; intros Hl; [done|].
  rewrite filter_cons_False by (apply Hl; left).
  apply IH. intros y Hy. apply Hl. by right.
Qed.

Lemma filter_fmap (f : A → B) (P : B → Prop) `{∀ y, Decision (P y)} (l : list A) :
  filter P (f <$> l) = f <$> filter (λ x, P (f x)) l.
Proof.
  induction l as [|x l IH]; [done|].
  rewrite fmap_cons, !filter_cons, IH. by destruct (decide (P (f x))).
Qed.

Lemma sumZ_cons (f : A → Z) (x : A) (l : list A) :
  sumZ f (x :: l) = f x + sumZ f l.
Proof. done. Qed.

Lemma sumZ_ext (f g : A → Z) (l : list A) :
  (∀ x, f x = g x) → sumZ f l = sumZ g l.
Proof. intros Hfg. induction l as [|x l IH]; [done|]. by rewrite !sumZ_cons, Hfg, IH. Qed.


Lemma sumZ_perm (f : A → Z) (l1 l2 : list A) : l1 ≡ₚ l2 → sumZ f l1 = sumZ f l2.
Proof. induction 1; simpl; lia. Qed.

Lemma sumZ_fmap (g : A → B) (f : B → Z) (l : list A) :
  sumZ f (g <$> l) = sumZ (λ x, f (g x)) l.
Proof. induction l as [|x l IH]; csimpl; [done|]. by rewrite IH. Qed.

Lemma sumZ_plus (f g : A → Z) (l : list A) :
  sumZ (λ x, f x + g x) l = sumZ f l + sumZ g l.
Proof. induction l as [|x l IH]; simpl; lia. Qed.

Lemma sumZ_zero (f : A → Z) (l : list A) : (∀ x, x ∈ l → f x = 0) → sumZ f l = 0.
Proof.
  induction l as [|x l IH]; intros Hf; simpl; [done|].
  rewrite (Hf x) by left. rewrite IH; [done|].
  intros y Hy. apply Hf. by right.
Qed.

Lemma sumZ_nonneg (f : A → Z) (l : list A) :
  (∀ x, x ∈ l → 0 ≤ f x) → 0 ≤ sumZ f l.
Proof.
  induction l as [|x l IH]; intros Hf; simpl; [lia|].
  assert (0 ≤ f x) by (apply Hf; left).
  assert (0 ≤ sumZ f l) by (apply IH; intros; apply Hf; by right).
  lia.
Qed.

End ListFacts.

Lemma filter_by_key {V : Type} (d : dict V) (k : string) (v : V) :
  wf d → (k, v) ∈ d → filter (λ item, item.1 = k) d = [(k, v)].
Proof.
  unfold wf, keys. induction d as [|[k' v'] d IH]; intros Hnd Hin.
  - by apply elem_of_nil in Hin.
  - rewrite fmap_cons in Hnd. apply NoDup_cons in Hnd as [Hk' Hnd].
    apply elem_of_cons in Hin as [Heq|Hin].
    + simplify_eq. rewrite filter_cons_True by done. f_equal.
      apply filter_none. intros [k2 v2] Hin2 Hk2. simpl in *. subst k2.
      apply Hk'. apply list_elem_of_fmap. by exists (k', v2).
    + rewrite filter_cons_False; [by apply IH|].
      simpl. intros ->. apply Hk'. apply list_elem_of_fmap. by exists (k, v).
Qed.

Lemma dict_value_unique {V : Type} (d : dict V) (k : string) (v1 v2 : V) :
  wf d → (k, v1) ∈ d → (k, v2) ∈ d → v1 = v2.
Proof.
  unfold wf, keys. induction d as [|[k' v'] d IH]; intros Hnd H1 H2.
  - by apply elem_of_nil in H1.
  - rewrite fmap_cons in Hnd. apply NoDup_cons in Hnd as [Hk Hnd].
    assert (∀ v, (k', v) ∈ d → False) as Hno.
    { intros v Hv. apply Hk. apply list_elem_of_fmap. by exists (k', v). }
    apply elem_of_cons in H1 as [E1|H1]; apply elem_of_cons in H2 as [E2|H2];
      simplify_eq.
    + done.
    + by destruct (Hno v2).
    + by destruct (Hno v1).
    + by apply IH.
Qed.

(** ** The aggregation loops *)
Section AggregateFacts.
Context `{F : Float}.
Implicit Types (m : gmap string string) (acc : accumulators) (rows : list Row.t).

Lemma record_sale_unmapped m acc row :
  m !! Row.event_id row = None → record_sale m acc row = acc.
Proof. intros Hm. unfold record_sale. by rewrite Hm. Qed.

Lemma add_to_lookup k n (d : gmap string Z) k' :
  default 0 (add_to k n d !! k') =
  default 0 (d !! k') + (if bool_decide (k = k') then n else 0).
Proof.
  unfold add_to. case_bool_decide as Hk.
  - subst k'. by rewrite lookup_insert_eq.
  - rewrite lookup_insert_ne by done. lia.
Qed.

Lemma record_sale_concert_tix m acc row cid :
  default 0 (show_concert_tix (record_sale m acc row) !! cid) =
  default 0 (show_concert_tix acc !! cid) + concert_part m cid row.
Proof.
  unfold record_sale, concert_part, credited.
  destruct (m !! Row.event_id row) as [c|] eqn:Hm; simpl.
  - destruct (String.eqb_spec (Row.event_id row) c) as [Heq|Hne];
      rewrite ?add_to_lookup;
      destruct (String.eqb_spec (Row.event_id row) cid);
      repeat case_bool_decide; simplify_eq; simpl; lia.
  - repeat case_bool_decide; simplify_eq; simpl; lia.
Qed.

Lemma record_sale_upsell_tix m acc row cid :
  default 0 (show_upsell_tix (record_sale m acc row) !! cid) =
  default 0 (show_upsell_tix acc !! cid) + upsell_part m cid row.
Proof.
  unfold record_sale, upsell_part, credited.
  destruct (m !! Row.event_id row) as [c|] eqn:Hm; simpl.
  - destruct (String.eqb_spec (Row.event_id row) c) as [Heq|Hne];
      rewrite ?add_to_lookup;
      destruct (String.eqb_spec (Row.event_id row) cid);
      repeat case_bool_decide; simplify_eq; simpl; lia.
  - repeat case_bool_decide; simplify_eq; simpl; lia.
Qed.

Lemma fold_concert_tix m rows acc cid :
  default 0 (show_concert_tix (fold_left (record_sale m) rows acc) !! cid) =
  default 0 (show_concert_tix acc !! cid) + sumZ (concert_part m cid) rows.
Proof.
  revert acc. induction rows as [|row rows IH]; intros acc; simpl; [lia|].
  rewrite IH, record_sale_concert_tix. lia.
Qed.

Lemma fold_upsell_tix m rows acc cid :
  default 0 (show_upsell_tix (fold_left (record_sale m) rows acc) !! cid) =
  default 0 (show_upsell_tix acc !! cid) + sumZ (upsell_part m cid) rows.
Proof.
  revert acc. induction rows as [|row rows IH]; intros acc; simpl; [lia|].
  rewrite IH, record_sale_upsell_tix. lia.
Qed.

Lemma concert_tix_total m rows cid :
  default 0 (show_concert_tix (fold_left (record_sale m) rows no_sales) !! cid) =
  sumZ (concert_part m cid) rows.
Proof. rewrite fold_concert_tix. simpl. by rewrite lookup_empty. Qed.

Lemma upsell_tix_total m rows cid :
  default 0 (show_upsell_tix (fold_left (record_sale m) rows no_sales) !! cid) =
  sumZ (upsell_part m cid) rows.
Proof. rewrite fold_upsell_tix. simpl. by rewrite lookup_empty. Qed.

(** The guard [total > 0] keeps the division away from zero. *)
Lemma make_show_ok acc item : make_show acc item = Ok (show_of acc item).
Proof.
  destruct item as [cid c]. unfold make_show, show_of, truediv, fmul_int. simpl.
  destruct (0 <? _) eqn:Hpos; simpl; [|done].
  apply Z.ltb_lt in Hpos.
  destruct (_ =? 0) eqn:Hz; simpl; [|done].
  apply Z.eqb_eq in Hz. lia.
Qed.

Lemma for_each_ok {A B : Type} (f : A → result B) (g : A → B) (l : list A) :
  (∀ x, f x = Ok (g x)) → for_each f l = Ok (g <$> l).
Proof.
  intros Hf. induction l as [|x l IH]; simpl; [done|].
  by rewrite Hf, IH.
Qed.

Lemma aggregate_show_sales_eq rows m (concerts events : dict Event.t) :
  aggregate_show_sales rows m concerts events =
  Ok (sort_key_reverse Show.total_tickets
        (show_of (fold_left (record_sale m) rows no_sales) <$> concerts)).
Proof.
  unfold aggregate_show_sales.
  by rewrite (for_each_ok _ _ _ (make_show_ok _)).
Qed.

End AggregateFacts.

(** ** The aggregator *)
Section Aggregator.
Context `{F : Float}.
Implicit Types (m : gmap string string) (rows : list Row.t)
  (concerts events : dict Event.t).

(** C1: every show returned by the aggregator has [total_tickets] equal to
    [concert_tickets + upsell_tickets]. *)
Theorem total_tickets_is_sum rows m concerts events :
  ∃ shows, aggregate_show_sales rows m concerts events = Ok shows ∧
    ∀ s, s ∈ shows →
      Show.total_tickets s = Show.concert_tickets s + Show.upsell_tickets s.
Proof.
  eexists. split; [apply aggregate_show_sales_eq|].
  intros s Hs. rewrite sort_key_reverse_perm in Hs.
  by apply list_elem_of_fmap in Hs as (item & -> & _).
Qed.

(** C4: a sale row whose event id is not in the event-to-concert mapping is
    skipped without error: the aggregator returns the very same shows,
    totals and time series included, as when the row is not in the input. *)
Theorem unmapped_sale_skipped l1 row l2 m concerts events :
  m !! Row.event_id row = None →
  ∃ shows,
    aggregate_show_sales (l1 ++ row :: l2) m concerts events = Ok shows ∧
    aggregate_show_sales (l1 ++ l2) m concerts events = Ok shows.
Proof.
  intros Hm. eexists. split; [apply aggregate_show_sales_eq|].
  rewrite aggregate_show_sales_eq.
  rewrite !fold_left_app. simpl.
  by rewrite (record_sale_unmapped _ _ _ Hm).
Qed.

(** C7: the aggregator never raises [ZeroDivisionError]; a show with
    [total_tickets = 0] has [upsell_pct = 0], and a show with
    [total_tickets > 0] has [upsell_pct = upsell_tickets / total_tickets * 100]
    (each of the two float operations rounded by [fl]). *)
Theorem upsell_pct_guarded rows m concerts events :
  ∃ shows, aggregate_show_sales rows m concerts events = Ok shows ∧
    ∀ s, s ∈ shows →
      (Show.total_tickets s = 0 → Show.upsell_pct s = 0%Q) ∧
      (0 < Show.total_tickets s →
       Show.upsell_pct s =
       fl (fl (inject_Z (Show.upsell_tickets s) / inject_Z (Show.total_tickets s))
           * 100)%Q).
Proof.
  eexists. split; [apply aggregate_show_sales_eq|].
  intros s Hs. rewrite sort_key_reverse_perm in Hs.
  apply list_elem_of_fmap in Hs as (item & -> & _).
  unfold show_of; simpl. split.
  - intros ->. done.
  - intros Hpos. apply Z.ltb_lt in Hpos. by rewrite Hpos.
Qed.

Lemma fl_unit_interval (x : Q) : (0 <= x)%Q → (x <= 1)%Q → (0 <= fl x)%Q ∧ (fl x <= 1)%Q.
Proof.
  intros H0 H1. split.
  - apply Qle_trans with (fl 0); [|by apply fl_mono].
    apply Qle_lteq. right. symmetry. apply fl_0.
  - apply Qle_trans with (fl 1); [by apply fl_mono|].
    apply Qle_lteq. right. apply fl_1.
Qed.

Lemma fl_percent (x : Q) :
  (0 <= x)%Q → (x <= 1)%Q → (0 <= fl (x * 100))%Q ∧ (fl (x * 100) <= 100)%Q.
Proof.
  intros H0 H1. split.
  - apply Qle_trans with (fl 0); [|apply fl_mono; lra].
    apply Qle_lteq. right. symmetry. apply fl_0.
  - apply Qle_trans with (fl 100); [apply fl_mono; lra|].
    apply Qle_lteq. right. apply fl_100.
Qed.

Lemma ratio_unit_interval (a b : Z) :
  0 ≤ a → a ≤ b → 0 < b →
  (0 <= inject_Z a / inject_Z b)%Q ∧ (inject_Z a / inject_Z b <= 1)%Q.
Proof.
  intros Ha Hab Hb.
  assert (0 < inject_Z b)%Q as Hb' by (unfold Qlt; simpl; lia).
  split.
  - apply Qle_shift_div_l; [done|].
    unfold Qle; simpl; lia.
  - apply Qle_shift_div_r; [done|].
    unfold Qle; simpl; lia.
Qed.

(** C10: when no sale row has a negative ticket count, [upsell_pct] of every
    show lies between 0 and 100. *)
Theorem upsell_pct_range rows m concerts events :
  (∀ row, row ∈ rows → 0 ≤ Row.tickets row) →
  ∃ shows, aggregate_show_sales rows m concerts events = Ok shows ∧
    ∀ s, s ∈ shows →
      (0 <= Show.upsell_pct s)%Q ∧ (Show.upsell_pct s <= 100)%Q.
Proof.
  intros Hrows. eexists. split; [apply aggregate_show_sales_eq|].
  intros s Hs. rewrite sort_key_reverse_perm in Hs.
  apply list_elem_of_fmap in Hs as ([cid c] & -> & _).
  unfold show_of; simpl.
  rewrite concert_tix_total, upsell_tix_total.
  assert (0 ≤ sumZ (concert_part m cid) rows) as Hct.
  { apply sumZ_nonneg. intros row Hrow. unfold concert_part.
    destruct (_ && _); [by apply Hrows|lia]. }
  assert (0 ≤ sumZ (upsell_part m cid) rows) as Hut.
  { apply sumZ_nonneg. intros row Hrow. unfold upsell_part.
    destruct (_ && _); [by apply Hrows|lia]. }
  destruct (0 <? _) eqn:Hpos; [|split; lra].
  apply Z.ltb_lt in Hpos.
  apply fl_percent; apply fl_unit_interval; apply ratio_unit_interval; lia.
Qed.

Lemma uncredited_total m rows (item : string * Event.t) :
  (∀ row, row ∈ rows → m !! Row.event_id row ≠ Some item.1) →
  Show.total_tickets (show_of (fold_left (record_sale m) rows no_sales) item) = 0.
Proof.
  intros Hrows. unfold show_of; simpl.
  rewrite concert_tix_total, upsell_tix_total.
  rewrite !sumZ_zero; [done| |]; intros row Hrow;
    unfold upsell_part, concert_part, credited;
    rewrite bool_decide_eq_false_2 by (by apply Hrows); done.
Qed.

(** C2: for a concert dictionary, the aggregator returns exactly one show
    per concert id, also for a concert that no sale row is credited to
    (that show has [total_tickets = 0]), and every returned show carries the
    id of one of the concerts. *)
Theorem one_show_per_concert rows m concerts events :
  wf concerts →
  ∃ shows, aggregate_show_sales rows m concerts events = Ok shows ∧
    (∀ cid, cid ∈ keys concerts →
       ∃ s, filter (λ s, Show.concert_id s = cid) shows = [s] ∧
         ((∀ row, row ∈ rows → m !! Row.event_id row ≠ Some cid) →
          Show.total_tickets s = 0)) ∧
    (∀ s, s ∈ shows → Show.concert_id s ∈ keys concerts).
Proof.
  intros Hwf. eexists. split; [apply aggregate_show_sales_eq|].
  set (acc := fold_left (record_sale m) rows no_sales). split.
  - intros cid Hcid.
    apply list_elem_of_fmap in Hcid as ([cid' c] & -> & Hin). simpl.
    exists (show_of acc (cid', c)). split.
    + apply Permutation_singleton_r.
      rewrite sort_key_reverse_perm, filter_fmap. simpl.
      by rewrite (filter_by_key _ _ _ Hwf Hin).
    + apply (uncredited_total m rows (cid', c)).
  - intros s Hs. rewrite sort_key_reverse_perm in Hs.
    apply list_elem_of_fmap in Hs as (item & -> & Hin). simpl.
    apply list_elem_of_fmap. by exists item.
Qed.

(** C5: the list returned by the aggregator is in descending order of
    [total_tickets]; hence, for every [n], adjacent shows of the top list
    are in descending order and every show of the bottom list has
    [total_tickets > 0]. *)
Theorem shows_sorted_descending rows m concerts events :
  ∃ shows, aggregate_show_sales rows m concerts events = Ok shows ∧
    (∀ i j a b, (i < j)%nat → shows !! i = Some a → shows !! j = Some b →
       Show.total_tickets b ≤ Show.total_tickets a) ∧
    ∀ n,
      (∀ i a b, (get_top_bottom shows n).1 !! i = Some a →
                (get_top_bottom shows n).1 !! S i = Some b →
                Show.total_tickets b ≤ Show.total_tickets a) ∧
      (∀ s, s ∈ (get_top_bottom shows n).2 → 0 < Show.total_tickets s).
Proof.
  eexists. split; [apply aggregate_show_sales_eq|].
  set (shows := sort_key_reverse _ _).
  assert (StronglySorted (descending Show.total_tickets) shows) as Hsorted
    by apply sort_key_reverse_sorted.
  split; [|intros n; split].
  - intros i j a b Hij Ha Hb.
    by apply (StronglySorted_lookup _ _ _ _ _ _ Hsorted Hij Ha Hb).
  - intros i a b Ha Hb.
    assert (StronglySorted (descending Show.total_tickets) (get_top_bottom shows n).1)
      as Htop.
    { eapply StronglySorted_sublist; [|exact Hsorted].
      unfold get_top_bottom, slice_to; simpl.
      trans (filter (λ s, 0 < Show.total_tickets s) shows);
        [|apply sublist_filter].
      destruct (0 <=? n); apply sublist_take. }
    apply (StronglySorted_lookup _ _ i (S i) _ _ Htop); [lia|done|done].
  - intros s Hs. unfold get_top_bottom, slice_from in Hs; simpl in Hs.
    assert (s ∈ filter (λ s, 0 < Show.total_tickets s) shows) as Hin.
    { eapply elem_of_sublist; [exact Hs|]. destruct (0 <=? - n); apply sublist_drop. }
    by apply list_elem_of_filter in Hin as [? _].
Qed.

Lemma credit_part m cid row :
  concert_part m cid row + upsell_part m cid row =
  if credited m cid row then Row.tickets row else 0.
Proof.
  unfold concert_part, upsell_part.
  destruct (credited m cid row), (String.eqb _ _); simpl; lia.
Qed.

Lemma credit_once m concerts row :
  wf concerts →
  sumZ (λ item : string * Event.t,
          concert_part m item.1 row + upsell_part m item.1 row) concerts =
  if resolves m concerts row then Row.tickets row else 0.
Proof.
  unfold wf. induction concerts as [|[k c] d IH]; intros Hnd.
  - unfold resolves. destruct (m !! _); [|done].
    rewrite bool_decide_eq_false_2; [done|]. apply not_elem_of_nil.
  - change (keys ((k, c) :: d)) with (k :: keys d) in Hnd.
    apply NoDup_cons in Hnd as [Hk Hnd].
    rewrite sumZ_cons, credit_part, (IH Hnd). simpl.
    unfold resolves, credited.
    destruct (m !! Row.event_id row) as [cid|];
      [|by rewrite bool_decide_eq_false_2].
    change (keys ((k, c) :: d)) with (k :: keys d).
    destruct (decide (cid = k)) as [->|Hne].
    + rewrite (bool_decide_eq_true_2 (Some k = Some k)) by done.
      rewrite (bool_decide_eq_false_2 (k ∈ keys d)) by done.
      rewrite bool_decide_eq_true_2 by left. lia.
    + rewrite (bool_decide_eq_false_2 (Some cid = Some k)) by congruence.
      destruct (decide (cid ∈ keys d)) as [Hin|Hnin].
      * rewrite !bool_decide_eq_true_2; [lia|by right|done].
      * rewrite !bool_decide_eq_false_2; [lia| |done].
        by intros [?|?]%elem_of_cons.
Qed.

Lemma totals_account_for_resolved m concerts rows :
  wf concerts →
  sumZ (λ item : string * Event.t,
          sumZ (concert_part m item.1) rows + sumZ (upsell_part m item.1) rows)
       concerts =
  sumZ Row.tickets (filter (λ row, resolves m concerts row = true) rows).
Proof.
  intros Hwf. induction rows as [|row rows IH].
  - by apply sumZ_zero.
  - transitivity
      (sumZ (λ item : string * Event.t,
               concert_part m item.1 row + upsell_part m item.1 row) concerts +
       sumZ (λ item : string * Event.t,
               sumZ (concert_part m item.1) rows + sumZ (upsell_part m item.1) rows)
            concerts).
    { clear. induction concerts as [|item d IHd]; simpl in *; lia. }
    rewrite IH, (credit_once _ _ _ Hwf), filter_cons.
    destruct (decide (resolves m concerts row = true)) as [Hr|Hr].
    + by rewrite Hr.
    + apply not_true_is_false in Hr. by rewrite Hr.
Qed.

(** The shows account for exactly the tickets of the resolved rows. *)
Lemma total_equals_resolved rows m concerts events :
  wf concerts →
  ∃ shows, aggregate_show_sales rows m concerts events = Ok shows ∧
    sumZ Show.total_tickets shows =
    sumZ Row.tickets (filter (λ row, resolves m concerts row = true) rows).
Proof.
  intros Hwf. eexists. split; [apply aggregate_show_sales_eq|].
  rewrite (sumZ_perm _ _ _ (sort_key_reverse_perm _ _)), sumZ_fmap.
  rewrite <- (totals_account_for_resolved _ _ _ Hwf).
  apply sumZ_ext. intros item. unfold show_of; simpl.
  by rewrite concert_tix_total, upsell_tix_total.
Qed.

(** C8: the sum of [total_tickets] over the returned shows is at most the
    sum of the ticket counts of the sale rows whose event id the mapping
    sends to one of the concerts. *)
Theorem total_bounded_by_resolved rows m concerts events :
  wf concerts →
  ∃ shows, aggregate_show_sales rows m concerts events = Ok shows ∧
    sumZ Show.total_tickets shows ≤
    sumZ Row.tickets (filter (λ row, resolves m concerts row = true) rows).
Proof.
  intros Hwf.
  destruct (total_equals_resolved rows m concerts events Hwf) as (shows & Hok & Heq).
  exists shows. split; [done|lia].
Qed.

End Aggregator.

(** ** The ranker *)

(** C6: with [n = 2] and exactly one show with [total_tickets > 0], the top
    list and the bottom list are both that single show. *)
Theorem single_show_top_and_bottom (l1 l2 : list Show.t) (s : Show.t) :
  0 < Show.total_tickets s →
  (∀ x, x ∈ l1 ++ l2 → ¬ (0 < Show.total_tickets x)) →
  get_top_bottom (l1 ++ s :: l2) 2 = ([s], [s]).
Proof.
  intros Hs Hrest. unfold get_top_bottom.
  rewrite filter_app, filter_cons_True by done.
  rewrite !filter_none; [done| |]; intros x Hx; apply Hrest;
    apply elem_of_app; auto.
Qed.

(** ** The classifier *)
Section Classifier.
Implicit Types (events concerts upsells : dict Event.t).

Lemma setitem_new {V : Type} (k : string) (v : V) (d : dict V) :
  k ∉ keys d → setitem k v d = d ++ [(k, v)].
Proof.
  induction d as [|[k' v'] d IH]; intros Hk; simpl; [done|].
  change (keys ((k', v') :: d)) with (k' :: keys d) in Hk.
  apply not_elem_of_cons in Hk as [Hne Hk].
  destruct (String.eqb_spec k' k); [congruence|].
  by rewrite IH.
Qed.

Lemma keys_filter_subseteq {V : Type} (P : string * V → Prop)
    `{∀ x, Decision (P x)} (d : dict V) k :
  k ∈ keys (filter P d) → k ∈ keys d.
Proof.
  unfold keys. intros (item & -> & Hin)%list_elem_of_fmap.
  apply list_elem_of_filter in Hin as [_ Hin].
  apply list_elem_of_fmap. by exists item.
Qed.

Lemma classify_fold events concerts upsells :
  wf events →
  (∀ k, k ∈ keys events → (k ∉ keys concerts) ∧ (k ∉ keys upsells)) →
  fold_left classify_step events (concerts, upsells) =
  (concerts ++ filter (λ item, is_concert item.2 = true) events,
   upsells ++ filter (λ item, is_concert item.2 = false) events).
Proof.
  unfold wf. revert concerts upsells.
  induction events as [|[eid e] events IH]; intros concerts upsells Hnd Hfresh.
  - by rewrite !app_nil_r.
  - change (keys ((eid, e) :: events)) with (eid :: keys events) in *.
    apply NoDup_cons in Hnd as [Heid Hnd].
    destruct (Hfresh eid) as [Hc Hu]; [left|].
    simpl. rewrite !filter_cons. simpl.
    destruct (is_concert e) eqn:He; simpl.
    + rewrite (setitem_new _ _ _ Hc), IH; [by rewrite <- app_assoc|done|].
      intros k Hk. destruct (Hfresh k) as [Hkc Hku]; [by right|].
      split; [|done]. unfold keys. rewrite fmap_app. simpl.
      intros [?|Hin]%elem_of_app; [done|].
      apply list_elem_of_singleton in Hin. by subst.
    + rewrite (setitem_new _ _ _ Hu), IH; [by rewrite <- app_assoc|done|].
      intros k Hk. destruct (Hfresh k) as [Hkc Hku]; [by right|].
      split; [done|]. unfold keys. rewrite fmap_app. simpl.
      intros [?|Hin]%elem_of_app; [done|].
      apply list_elem_of_singleton in Hin. by subst.
Qed.

(** On a dictionary, [classify_events] splits the events in two by the name
    test, keeping their order. *)
Lemma classify_events_filter events :
  wf events →
  classify_events events =
  (filter (λ item, is_concert item.2 = true) events,
   filter (λ item, is_concert item.2 = false) events).
Proof.
  intros Hwf. unfold classify_events.
  rewrite classify_fold; [done|done|].
  intros k _. split; apply not_elem_of_nil.
Qed.

(** The two dictionaries returned by [classify_events] have no repeated key
    and no key in common. *)
Lemma classify_events_disjoint events :
  wf events →
  wf (classify_events events).2 ∧
  Forall (λ k, k ∉ keys (classify_events events).2) (keys (classify_events events).1).
Proof.
  intros Hwf. rewrite (classify_events_filter _ Hwf). simpl. split.
  - unfold wf, keys in *. eapply sublist_NoDup; [exact Hwf|].
    apply fmap_sublist, sublist_filter.
  - apply Forall_forall. intros k Hk1 Hk2.
    unfold keys in Hk1, Hk2.
    apply list_elem_of_fmap in Hk1 as ([k1 e1] & -> & [He1 Hin1]%list_elem_of_filter).
    apply list_elem_of_fmap in Hk2 as ([k2 e2] & Hk & [He2 Hin2]%list_elem_of_filter).
    simpl in *. subst k2.
    assert (e1 = e2) as ->; [|congruence].
    by apply (dict_value_unique events k1).
Qed.

End Classifier.

(** ** The linker *)
Section Linker.
Implicit Types (concerts upsells : dict Event.t)
  (idx : gmap (string * string) string) (m : gmap string string).

(** One iteration of the loop that fills [concert_by_vd]. *)
Lemma index_concerts_snoc concerts cid c :
  index_concerts (concerts ++ [(cid, c)]) = <[vd c := cid]> (index_concerts concerts).
Proof. unfold index_concerts. by rewrite fold_left_app. Qed.

(** The index holds, for every key, the id of the last concert with it. *)
Lemma index_concerts_last l1 cid c l2 :
  (∀ cid' c', (cid', c') ∈ l2 → vd c' ≠ vd c) →
  index_concerts (l1 ++ (cid, c) :: l2) !! vd c = Some cid.
Proof.
  induction l2 as [|[cid' c'] l2 IH] using rev_ind; intros Hl2.
  - rewrite index_concerts_snoc. apply lookup_insert_eq.
  - rewrite app_comm_cons, app_assoc, index_concerts_snoc.
    rewrite lookup_insert_ne.
    + apply IH. intros k e Hin. apply (Hl2 k). apply elem_of_app. by left.
    + apply (Hl2 cid'). apply elem_of_app. right. left.
Qed.

Lemma index_concerts_none concerts key :
  (∀ cid c, (cid, c) ∈ concerts → vd c ≠ key) →
  index_concerts concerts !! key = None.
Proof.
  induction concerts as [|[cid c] l IH] using rev_ind; intros Hl.
  - apply lookup_empty.
  - rewrite index_concerts_snoc, lookup_insert_ne.
    + apply IH. intros k e Hin. apply (Hl k). apply elem_of_app. by left.
    + apply (Hl cid). apply elem_of_app. right. left.
Qed.

Lemma index_concerts_inv concerts key cid :
  index_concerts concerts !! key = Some cid →
  ∃ c, (cid, c) ∈ concerts ∧ vd c = key.
Proof.
  induction concerts as [|[cid' c'] l IH] using rev_ind; intros Hl.
  - unfold index_concerts in Hl. simpl in Hl. by rewrite lookup_empty in Hl.
  - rewrite index_concerts_snoc in Hl.
    destruct (decide (vd c' = key)) as [<-|Hne].
    + rewrite lookup_insert_eq in Hl. injection Hl as ->.
      exists c'. split; [|done]. apply elem_of_app. right. left.
    + rewrite lookup_insert_ne in Hl by done.
      destruct (IH Hl) as (c & Hin & Hc). exists c. split; [|done].
      apply elem_of_app. by left.
Qed.

Lemma index_concerts_some concerts key :
  (∃ cid c, (cid, c) ∈ concerts ∧ vd c = key) →
  is_Some (index_concerts concerts !! key).
Proof.
  induction concerts as [|[cid' c'] l IH] using rev_ind; intros (cid & c & Hin & Hc).
  - by apply elem_of_nil in Hin.
  - rewrite index_concerts_snoc.
    destruct (decide (vd c' = key)) as [<-|Hne].
    + rewrite lookup_insert_eq. by eexists.
    + rewrite lookup_insert_ne by done. apply IH.
      apply elem_of_app in Hin as [Hin|Hin]; [by eauto|].
      apply list_elem_of_singleton in Hin. congruence.
Qed.

(** The loop [for cid in concerts: event_to_concert[cid] = cid]. *)
Lemma self_map_lookup (ks : list string) m k :
  fold_left (λ m cid, <[cid := cid]> m) ks m !! k =
  if decide (k ∈ ks) then Some k else m !! k.
Proof.
  revert m. induction ks as [|k' ks IH]; intros m.
  - simpl. destruct (decide (k ∈ [])) as [Hin|_]; [by apply elem_of_nil in Hin|done].
  - cbn [fold_left]. rewrite IH.
    destruct (decide (k ∈ ks)) as [Hin|Hnin],
             (decide (k ∈ k' :: ks)) as [Hin'|Hnin'].
    + done.
    + exfalso. apply Hnin'. by right.
    + apply elem_of_cons in Hin' as [->|?]; [apply lookup_insert_eq|done].
    + apply lookup_insert_ne. intros ->. apply Hnin'. left.
Qed.

(** The loop over the upsells leaves the other ids alone. *)
Lemma link_fold_other idx upsells m k :
  k ∉ keys upsells →
  fold_left (link_upsell idx) upsells m !! k = m !! k.
Proof.
  revert m. induction upsells as [|[uid u] l IH]; intros m Hk; [done|].
  change (keys ((uid, u) :: l)) with (uid :: keys l) in Hk.
  apply not_elem_of_cons in Hk as [Hne Hk].
  simpl. rewrite (IH _ Hk).
  destruct (idx !! _); [|done]. by apply lookup_insert_ne.
Qed.

Lemma link_fold_upsell idx upsells m uid u :
  wf upsells → (uid, u) ∈ upsells →
  fold_left (link_upsell idx) upsells m !! uid =
  match idx !! vd u with
  | Some cid => Some cid
  | None => m !! uid
  end.
Proof.
  unfold wf. revert m.
  induction upsells as [|[uid' u'] l IH]; intros m Hnd Hin.
  - by apply elem_of_nil in Hin.
  - change (keys ((uid', u') :: l)) with (uid' :: keys l) in Hnd.
    apply NoDup_cons in Hnd as [Hfresh Hnd].
    apply elem_of_cons in Hin as [Heq|Hin].
    + simplify_eq. simpl. rewrite (link_fold_other _ _ _ _ Hfresh).
      unfold vd. destruct (idx !! _); [|done]. apply lookup_insert_eq.
    + simpl. rewrite (IH _ Hnd Hin).
      destruct (idx !! vd u); [done|].
      destruct (idx !! _); [|done]. apply lookup_insert_ne.
      intros ->. apply Hfresh. apply list_elem_of_fmap. by exists (uid, u).
Qed.

(** An upsell id is sent to whatever the index holds for its key. *)
Lemma build_show_map_upsell concerts upsells uid u :
  wf upsells →
  Forall (λ k, k ∉ keys upsells) (keys concerts) →
  (uid, u) ∈ upsells →
  build_show_map concerts upsells !! uid = index_concerts concerts !! vd u.
Proof.
  intros Hwf Hdisj Hin. unfold build_show_map.
  rewrite (link_fold_upsell _ _ _ _ _ Hwf Hin).
  destruct (index_concerts concerts !! vd u); [done|].
  rewrite self_map_lookup, lookup_empty.
  rewrite decide_False; [done|].
  intros Hc. rewrite Forall_forall in Hdisj. apply (Hdisj _ Hc).
  apply list_elem_of_fmap. by exists (uid, u).
Qed.

(** C3: for disjoint concert and upsell dictionaries, [build_show_map] sends
    every concert id to itself; it sends an upsell id to a concert id exactly
    when some concert has the same (venue_id, event_dt), and then to the id of
    the last such concert in iteration order; an upsell without such a
    concert is not in the mapping. *)
Theorem build_show_map_spec concerts upsells :
  wf upsells →
  Forall (λ k, k ∉ keys upsells) (keys concerts) →
  (∀ cid, cid ∈ keys concerts →
     build_show_map concerts upsells !! cid = Some cid) ∧
  (∀ uid u, (uid, u) ∈ upsells →
     (∀ cid, build_show_map concerts upsells !! uid = Some cid →
        ∃ c, (cid, c) ∈ concerts ∧ vd c = vd u) ∧
     ((∃ cid c, (cid, c) ∈ concerts ∧ vd c = vd u) →
        is_Some (build_show_map concerts upsells !! uid)) ∧
     ((∀ cid c, (cid, c) ∈ concerts → vd c ≠ vd u) →
        build_show_map concerts upsells !! uid = None) ∧
     (∀ l1 cid c l2,
        concerts = l1 ++ (cid, c) :: l2 → vd c = vd u →
        (∀ cid' c', (cid', c') ∈ l2 → vd c' ≠ vd u) →
        build_show_map concerts upsells !! uid = Some cid)).
Proof.
  intros Hwf Hdisj. split.
  - intros cid Hcid. unfold build_show_map.
    rewrite link_fold_other, self_map_lookup; [by rewrite decide_True|].
    rewrite Forall_forall in Hdisj. by apply Hdisj.
  - intros uid u Hin.
    rewrite (build_show_map_upsell _ _ _ _ Hwf Hdisj Hin).
    split; [|split; [|split]].
    + apply index_concerts_inv.
    + apply index_concerts_some.
    + apply index_concerts_none.
    + intros l1 cid c l2 -> <- Hl2. by apply index_concerts_last.
Qed.

End Linker.

(** ** The venue chart query *)
Section VenueChart.
Import UpsellRateByVenueChart.

(** The example rounding is within half a hundredth of its argument. *)
Lemma nearest_hundredth_close (x : Q) :
  (x - (1 # 200) <= nearest_hundredth x)%Q ∧ (nearest_hundredth x <= x + (1 # 200))%Q.
Proof.
  unfold nearest_hundredth.
  destruct (Qle_bool 0 (x * 100)) eqn:Hsign.
  - pose proof (Qfloor_le (x * 100 + (1 # 2))) as Hlo.
    pose proof (Qlt_floor (x * 100 + (1 # 2))) as Hhi.
    rewrite inject_Z_plus in Hhi.
    set (n := inject_Z (Qfloor (x * 100 + (1 # 2)))) in *.
    change (inject_Z 1) with 1%Q in Hhi.
    unfold Qdiv. change (/ 100)%Q with (1 # 100)%Q.
    split; lra.
  - pose proof (Qle_ceiling (x * 100 - (1 # 2))) as Hlo.
    pose proof (Qceiling_lt (x * 100 - (1 # 2))) as Hhi.
    unfold Z.sub in Hhi. rewrite inject_Z_plus in Hhi.
    set (n := inject_Z (Qceiling (x * 100 - (1 # 2)))) in *.
    change (inject_Z (Z.opp 1)) with (-1 # 1)%Q in Hhi.
    unfold Qdiv. change (/ 100)%Q with (1 # 100)%Q.
    split; lra.
Qed.















Lemma left_join_elem (css : list ConcertSales.t) (uss : list UpsellSales.t) cs us :
  (cs, us) ∈ left_join css uss →
  cs ∈ css ∧
  match us with
  | None => ∀ u, u ∈ uss → UpsellSales.venue_id u ≠ ConcertSales.venue_id cs
  | Some u => u ∈ uss ∧ UpsellSales.venue_id u = ConcertSales.venue_id cs
  end.
Proof.
  unfold left_join. intros (cs' & Hin & Hcs)%list_elem_of_bind.
  destruct (filter _ uss) as [|u0 rest] eqn:Hf.
  - apply list_elem_of_singleton in Hin. injection Hin as -> ->.
    split; [done|]. intros u Hu Hv.
    eapply (filter_nil_not_elem_of _ _ u); [exact Hf|exact Hv|exact Hu].
  - apply list_elem_of_fmap in Hin as (u & Hpair & Hu). injection Hpair as -> ->.
    split; [done|]. rewrite <- Hf in Hu. by apply list_elem_of_filter in Hu as [? ?].
Qed.


Section Rate.
Context `{R : Real}.

Lemma query_elem events ticket_sales row :
  row ∈ query events ticket_sales ↔
  ∃ cs us, row = select (cs, us) ∧
    (cs, us) ∈ left_join (concert_sales events ticket_sales)
                         (upsell_sales events ticket_sales) ∧
    0 < ConcertSales.concert_tickets cs.
Proof.
  unfold query. rewrite stable_sort_perm, list_elem_of_fmap. split.
  - intros ([cs us] & -> & [Hpos Hin]%list_elem_of_filter). by exists cs, us.
  - intros (cs & us & -> & Hin & Hpos). exists (cs, us). split; [done|].
    by apply list_elem_of_filter.
Qed.

(** On every kept row the division has a positive divisor. *)
Lemma select_rate (r : ConcertSales.t * option UpsellSales.t) :
  0 < ConcertSales.concert_tickets r.1 →
  Out.upsell_rate_pct (select r)
  = Some (rate_of_concert_tickets (Out.upsell_tickets (select r))
                                  (Out.concert_tickets (select r))).
Proof.
  destruct r as [cs us]. simpl. intros Hpos.
  unfold rate_of_concert_tickets, percent_of_concert_tickets, sql_div, sql_mul,
    real_of_int. simpl.
  destruct (_ =? 0) eqn:Hz; [|done].
  apply Z.eqb_eq in Hz. lia.
Qed.



End Rate.

End VenueChart.

(** ** The statements on the sample data *)

Lemma aggregate_sample :
  aggregate_show_sales (F := exact_arith) ex_rows ex_map ex_concerts ex_events =
  Ok [ex_show_A; ex_show_D].
Proof. vm_compute. reflexivity. Qed.

Lemma ex_concerts_wf : wf ex_concerts.
Proof. compute_done. Qed.

Lemma ex_upsells_wf : wf ex_upsells.
Proof. compute_done. Qed.

Lemma ex_disjoint : Forall (λ k, k ∉ keys ex_upsells) (keys ex_concerts).
Proof. compute_done. Qed.

Lemma total_tickets_is_sum_witness :
  Show.total_tickets ex_show_A =
  Show.concert_tickets ex_show_A + Show.upsell_tickets ex_show_A.
Proof.
  destruct (total_tickets_is_sum (F := exact_arith)
              ex_rows ex_map ex_concerts ex_events) as (shows & Hshows & Hsum).
  rewrite aggregate_sample in Hshows. injection Hshows as <-.
  apply Hsum. left.
Defined.

Lemma one_show_per_concert_witness :
  filter (λ s, Show.concert_id s = "D") [ex_show_A; ex_show_D] = [ex_show_D] ∧
  Show.total_tickets ex_show_D = 0.
Proof.
  destruct (one_show_per_concert (F := exact_arith)
              ex_rows ex_map ex_concerts ex_events ex_concerts_wf)
    as (shows & Hshows & Hone & _).
  rewrite aggregate_sample in Hshows. injection Hshows as <-.
  destruct (Hone "D") as (s & Hs & Hzero).
  { compute_done. }
  assert (s = ex_show_D) as ->
    by (vm_compute in Hs; injection Hs as <-; reflexivity).
  split; [exact Hs|]. apply Hzero.
  apply Forall_forall. compute_done.
Defined.

Lemma build_show_map_spec_witness :
  ex_map !! "A" = Some "A" ∧ ex_map !! "B" = Some "A" ∧ ex_map !! "C" = None.
Proof.
  destruct (build_show_map_spec ex_concerts ex_upsells ex_upsells_wf ex_disjoint)
    as [Hself Hups].
  split; [|split].
  - apply Hself. compute_done.
  - destruct (Hups "B" {| Event.name := "VIP Lounge"; Event.venue_id := "1";
                          Event.event_dt := "2024-01-01T20:00" |})
      as (_ & _ & _ & Hlast).
    { left. }
    apply (Hlast []
             "A" {| Event.name := "Neon Harbor - Super Awesome Tour";
                    Event.venue_id := "1"; Event.event_dt := "2024-01-01T20:00" |}
             [("D", {| Event.name := "SUPER AWESOME TOUR night";
                       Event.venue_id := "3"; Event.event_dt := "2024-01-03T20:00" |})]).
    + vm_compute. reflexivity.
    + reflexivity.
    + intros cid' c' Hin. apply list_elem_of_singleton in Hin.
      injection Hin as -> ->. discriminate.
  - destruct (Hups "C" {| Event.name := "Meet and Greet"; Event.venue_id := "2";
                          Event.event_dt := "2024-01-02T20:00" |})
      as (_ & _ & Hnone & _).
    { right. left. }
    apply Hnone. intros cid c Hin.
    assert ((cid, c) ∈ [("A", {| Event.name := "Neon Harbor - Super Awesome Tour";
                                 Event.venue_id := "1";
                                 Event.event_dt := "2024-01-01T20:00" |});
                        ("D", {| Event.name := "SUPER AWESOME TOUR night";
                                 Event.venue_id := "3";
                                 Event.event_dt := "2024-01-03T20:00" |})]) as Hin'
      by exact Hin.
    apply elem_of_cons in Hin' as [Heq|Hin'].
    + injection Heq as -> ->. discriminate.
    + apply list_elem_of_singleton in Hin'. injection Hin' as -> ->. discriminate.
Defined.

Lemma unmapped_sale_skipped_witness :
  ∃ shows,
    aggregate_show_sales (F := exact_arith) ex_rows ex_map ex_concerts ex_events
      = Ok shows ∧
    aggregate_show_sales (F := exact_arith)
      [ ex_row "A" "m2" 10; ex_row "B" "m1" 5; ex_row "Z" "m1" 9; ex_row "A" "m1" 20 ]
      ex_map ex_concerts ex_events = Ok shows.
Proof.
  apply (unmapped_sale_skipped (F := exact_arith)
           [ ex_row "A" "m2" 10; ex_row "B" "m1" 5 ] (ex_row "C" "m1" 7)
           [ ex_row "Z" "m1" 9; ex_row "A" "m1" 20 ]).
  vm_compute. reflexivity.
Defined.

Lemma shows_sorted_descending_witness :
  Show.total_tickets ex_show_D ≤ Show.total_tickets ex_show_A ∧
  (∀ s, s ∈ (get_top_bottom [ex_show_A; ex_show_D] 2).2 → 0 < Show.total_tickets s).
Proof.
  destruct (shows_sorted_descending (F := exact_arith)
              ex_rows ex_map ex_concerts ex_events) as (shows & Hshows & Hdesc & Hrank).
  rewrite aggregate_sample in Hshows. injection Hshows as <-.
  split.
  - apply (Hdesc 0%nat 1%nat); [lia|reflexivity|reflexivity].
  - apply (Hrank 2).
Defined.

Lemma single_show_top_and_bottom_witness :
  get_top_bottom [ex_show_A; ex_show_D] 2 = ([ex_show_A], [ex_show_A]).
Proof.
  apply (single_show_top_and_bottom [] [ex_show_D] ex_show_A).
  - simpl. lia.
  - intros x Hx. apply list_elem_of_singleton in Hx. subst x. simpl. lia.
Defined.

Lemma upsell_pct_guarded_witness :
  Show.upsell_pct ex_show_D = 0%Q ∧
  Show.upsell_pct ex_show_A = (inject_Z 5 / inject_Z 35 * 100)%Q.
Proof.
  destruct (upsell_pct_guarded (F := exact_arith)
              ex_rows ex_map ex_concerts ex_events) as (shows & Hshows & Hpct).
  rewrite aggregate_sample in Hshows. injection Hshows as <-.
  split.
  - destruct (Hpct ex_show_D) as [Hzero _]; [right; left|].
    apply Hzero. reflexivity.
  - destruct (Hpct ex_show_A) as [_ Hpos]; [left|].
    apply Hpos. simpl. lia.
Defined.

Lemma total_bounded_by_resolved_witness :
  sumZ Show.total_tickets [ex_show_A; ex_show_D] ≤
  sumZ Row.tickets (filter (λ row, resolves ex_map ex_concerts row = true) ex_rows).
Proof.
  destruct (total_bounded_by_resolved (F := exact_arith)
              ex_rows ex_map ex_concerts ex_events ex_concerts_wf)
    as (shows & Hshows & Hle).
  rewrite aggregate_sample in Hshows. injection Hshows as <-.
  exact Hle.
Defined.

Lemma upsell_pct_range_witness :
  (0 <= Show.upsell_pct ex_show_A)%Q ∧ (Show.upsell_pct ex_show_A <= 100)%Q.
Proof.
  destruct (upsell_pct_range (F := exact_arith)
              ex_rows ex_map ex_concerts ex_events) as (shows & Hshows & Hrange).
  { apply Forall_forall. compute_done. }
  rewrite aggregate_sample in Hshows. injection Hshows as <-.
  apply Hrange. left.
Defined.

Section VenueChartSample.
Import UpsellRateByVenueChart.

Lemma query_sample : query (R := exact_real) ex_table_events ex_table_sales = [ex_out].
Proof. vm_compute. reflexivity. Qed.



End VenueChartSample.

(** * Further properties *)

(** ** The name test *)

Lemma prefix_iff (p s : string) :
  String.prefix p s = true ↔ ∃ b, s = String.append p b.
Proof.
  revert s. induction p as [|a p IH]; intros s; simpl.
  - destruct s; split; eauto.
  - destruct s as [|c s]; simpl.
    + split; [done|]. intros (b & Hb). discriminate.
    + destruct (ascii_dec a c) as [->|Hne].
      * rewrite IH. split; intros (b & Hb); exists b.
        -- simpl. by rewrite Hb.
        -- simpl in Hb. by injection Hb.
      * split; [done|]. intros (b & Hb). simpl in Hb.
        injection Hb as Hc _. by destruct Hne.
Qed.

Lemma contains_iff (pat s : string) :
  contains pat s = true ↔ ∃ a b, s = String.append a (String.append pat b).
Proof.
  induction s as [|c s IH]; cbn [contains].
  - rewrite orb_false_r, prefix_iff. split.
    + intros (b & Hb). by exists EmptyString, b.
    + intros (a & b & Hab). destruct a; [by exists b|discriminate].
  - rewrite orb_true_iff, prefix_iff, IH. split.
    + intros [(b & Hb)|(a & b & Hab)].
      * by exists EmptyString, b.
      * exists (String c a), b. simpl. by rewrite Hab.
    + intros (a & b & Hab). destruct a as [|c' a]; simpl in Hab.
      * left. by exists b.
      * right. exists a, b. by injection Hab.
Qed.

(** X1: an event is classified as a concert exactly when its lower-cased
    name is some text, then "super awesome tour", then some text. *)
Theorem is_concert_iff (e : Event.t) :
  is_concert e = true ↔
  ∃ a b, lower (Event.name e) =
         String.append a (String.append "super awesome tour" b).
Proof. apply contains_iff. Qed.

(** ** The loaders *)
Section Loader.
Variable strip : string → string.
Variable int : string → option Z.

Lemma setitem_cell_keys {V : Type} (k : option string) (v : V)
    (d : list (option string * V)) :
  (setitem_cell k v d).*1 = if decide (k ∈ d.*1) then d.*1 else d.*1 ++ [k].
Proof.
  induction d as [|[k' v'] d IH].
  - simpl. destruct (decide (k ∈ [])) as [Hin|_]; [by apply elem_of_nil in Hin|done].
  - cbn [setitem_cell]. rewrite !fmap_cons. cbn [fst].
    destruct (decide (k' = k)) as [->|Hne].
    + rewrite fmap_cons. cbn [fst].
      destruct (decide (k ∈ k :: d.*1)) as [_|Hn]; [done|].
      exfalso. apply Hn. left.
    + rewrite fmap_cons, IH. cbn [fst].
      destruct (decide (k ∈ d.*1)) as [Hin|Hnin],
               (decide (k ∈ k' :: d.*1)) as [Hin'|Hnin']; try done.
      * exfalso. apply Hnin'. by right.
      * apply elem_of_cons in Hin' as [?|?]; [congruence|done].
Qed.

Lemma setitem_cell_NoDup {V : Type} (k : option string) (v : V)
    (d : list (option string * V)) :
  NoDup d.*1 → NoDup (setitem_cell k v d).*1.
Proof.
  rewrite setitem_cell_keys. destruct (decide (k ∈ d.*1)); [done|].
  intros Hnd. apply NoDup_app. split; [done|]. split.
  - intros x Hx Hk. apply list_elem_of_singleton in Hk. by subst.
  - apply NoDup_singleton.
Qed.

Lemma setitem_cell_elem {V : Type} (k : option string) (v : V)
    (d : list (option string * V)) k' v' :
  NoDup d.*1 →
  (k', v') ∈ setitem_cell k v d ↔ (k' = k ∧ v' = v) ∨ (k' ≠ k ∧ (k', v') ∈ d).
Proof.
  induction d as [|[k0 v0] d IH]; intros Hnd; cbn [setitem_cell].
  - rewrite list_elem_of_singleton. split.
    + intros [= -> ->]. by left.
    + intros [[-> ->]|[_ Hin]]; [done|by apply elem_of_nil in Hin].
  - rewrite fmap_cons in Hnd. cbn [fst] in Hnd.
    apply NoDup_cons in Hnd as [Hk0 Hnd].
    destruct (decide (k0 = k)) as [->|Hne].
    + rewrite !elem_of_cons. split.
      * intros [[= -> ->]|Hin]; [by left|]. right. split; [|by right].
        intros ->. apply Hk0. apply list_elem_of_fmap. by exists (k, v').
      * intros [[-> ->]|[Hne [[= ? ?]|Hin]]]; [by left|done|by right].
    + rewrite !elem_of_cons, (IH Hnd). split.
      * intros [[= -> ->]|[[-> ->]|[Hk Hin]]]; [right|by left|right]; split; auto.
      * intros [[-> ->]|[Hk [[= -> ->]|Hin]]];
          [right; by left|by left|right; right; auto].
Qed.

(** What one iteration stores. *)
Lemma read_event_inr row k e :
  read_event strip row = inr (k, e) ↔
  row !! "event_id" = Some k ∧ built_from strip row e.
Proof.
  unfold read_event, built_from.
  destruct (row !! "event_name") as [[event_name|]|] eqn:Hname;
    [|split; [done|by intros (_ & n & [=] & _)]..].
  destruct (row !! "venue_id") as [venue_id|] eqn:Hvenue;
    [|split; [done|by intros (_ & n & _ & _ & [=] & _)]].
  destruct (row !! "event_dt") as [event_dt|] eqn:Hdt;
    [|split; [done|by intros (_ & n & _ & _ & _ & [=])]].
  destruct (row !! "event_id") as [event_id|] eqn:Hid;
    [|split; [done|by intros ([=] & _)]].
  split.
  - intros [= <- <-]. split; [done|]. by exists event_name.
  - intros ([= <-] & n & [= <-] & Hn & [= Hv] & [= Hd]).
    destruct e as [name venue dt]. simpl in *. by subst.
Qed.

Lemma read_event_readable row :
  (∃ p, read_event strip row = inr p) ↔ readable row.
Proof.
  unfold read_event, readable.
  destruct (row !! "event_name") as [[event_name|]|];
    [|split; [by intros [? [=]]|by intros [[? [=]] _]]..].
  destruct (row !! "venue_id") as [venue_id|];
    [|split; [by intros [? [=]]|by intros (_ & [? [=]] & _)]].
  destruct (row !! "event_dt") as [event_dt|];
    [|split; [by intros [? [=]]|by intros (_ & _ & [? [=]] & _)]].
  destruct (row !! "event_id") as [event_id|];
    [|split; [by intros [? [=]]|by intros (_ & _ & _ & [? [=]])]].
  split; [|by eexists]. intros _. repeat split; by eexists.
Qed.

Lemma read_event_raises row :
  (read_event strip row = inl AttributeError → row !! "event_name" = Some None) ∧
  (∀ key, read_event strip row = inl (KeyError key) → row !! key = None).
Proof.
  unfold read_event.
  destruct (row !! "event_name") as [[event_name|]|] eqn:Hname;
    [|split; [done|by intros key [=]]|split; [done|by intros key [= <-]]].
  destruct (row !! "venue_id") as [venue_id|] eqn:Hvenue;
    [|split; [done|by intros key [= <-]]].
  destruct (row !! "event_dt") as [event_dt|] eqn:Hdt;
    [|split; [done|by intros key [= <-]]].
  destruct (row !! "event_id") as [event_id|] eqn:Hid;
    [|split; [done|by intros key [= <-]]].
  split; [done|by intros key [=]].
Qed.

(** The loop returns exactly when every row can be read. *)
Lemma load_events_from_returns events rows :
  (∃ out, load_events_from strip events rows = inr out) ↔ Forall readable rows.
Proof.
  revert events. induction rows as [|row rows IH]; intros events; cbn [load_events_from].
  - split; [constructor|by eexists].
  - rewrite Forall_cons, <- read_event_readable.
    destruct (read_event strip row) as [e|[k v]].
    + split; [by intros [? [=]]|by intros [[? [=]] _]].
    + rewrite IH. split; [intros ?; split; [by eexists|done]|by intros [_ ?]].
Qed.

(** An exception of the loop is the exception of one of the rows. *)
Lemma load_events_from_raises events rows e :
  load_events_from strip events rows = inl e →
  ∃ row, row ∈ rows ∧ read_event strip row = inl e.
Proof.
  revert events. induction rows as [|row rows IH]; intros events; cbn [load_events_from];
    [done|].
  destruct (read_event strip row) as [e'|[k v]] eqn:Hrow.
  - intros [= ->]. exists row. split; [left|done].
  - intros (r & Hin & Hr)%IH. exists r. split; [by right|done].
Qed.

(** The dictionary that the loop returns: what was there and is not
    assigned again, and for every key that is assigned, what its last row
    stores. *)
Lemma load_events_from_spec events rows out :
  NoDup events.*1 → load_events_from strip events rows = inr out →
  NoDup out.*1 ∧
  ∀ k e, (k, e) ∈ out ↔
    ((k, e) ∈ events ∧ ∀ r, r ∈ rows → r !! "event_id" ≠ Some k) ∨
    ∃ before row after,
      rows = before ++ row :: after ∧
      row !! "event_id" = Some k ∧
      (∀ r, r ∈ after → r !! "event_id" ≠ Some k) ∧
      built_from strip row e.
Proof.
  revert events. induction rows as [|row rows IH]; intros events Hnd;
    cbn [load_events_from].
  - intros [= <-]. split; [done|]. intros k e. split.
    + intros Hin. left. split; [done|]. by intros r ?%elem_of_nil.
    + intros [[Hin _]|(l1 & r & l2 & Hnil & _)]; [done|by destruct l1].
  - destruct (read_event strip row) as [?|[k0 v0]] eqn:Hrow; [done|].
    apply read_event_inr in Hrow as [Hk0 Hv0].
    intros Hout.
    destruct (IH _ (setitem_cell_NoDup k0 v0 events Hnd) Hout) as [Hnd' Hiff].
    split; [done|]. intros k e. rewrite Hiff, setitem_cell_elem by done. split.
    + intros [[[[-> ->]|[Hne Hin]] Hrows]|(l1 & r & l2 & -> & Hk & Hl2 & He)].
      * right. by exists [], row, rows.
      * left. split; [done|]. intros r [->|Hr]%elem_of_cons; [congruence|by apply Hrows].
      * right. by exists (row :: l1), r, l2.
    + intros [[Hin Hrows]|(l1 & r & l2 & Heq & Hk & Hl2 & He)].
      * left. split; [|intros r Hr; apply Hrows; by right].
        right. split; [|done]. intros ->. apply (Hrows row); [left|done].
      * destruct l1 as [|r1 l1]; simplify_eq/=.
        -- left. split; [|done]. left. split; [congruence|].
           destruct Hv0 as (n0 & Hn0 & Hname0 & Hven0 & Hdt0),
                    He as (n & Hn & Hname & Hven & Hdt).
           destruct e, v0. simpl in *. congruence.
        -- right. by exists l1, r, l2.
Qed.

(** X2: [load_events] returns exactly when every row has the four columns
    and a name that is not [None]; it raises [AttributeError] only on a row
    whose name is [None], and [KeyError] only for a column that a row lacks.
    When it returns, the dictionary has no repeated keys, and it holds
    (k, e) exactly when e was built (name stripped, venue and date copied)
    from the last row whose event_id is k: a later row replaces an earlier
    one. *)
Theorem load_events_last_row_wins rows :
  ((∃ events, load_events strip rows = inr events) ↔ Forall readable rows) ∧
  (load_events strip rows = inl AttributeError →
   ∃ row, row ∈ rows ∧ row !! "event_name" = Some None) ∧
  (∀ key, load_events strip rows = inl (KeyError key) →
   ∃ row, row ∈ rows ∧ row !! key = None) ∧
  ∀ events, load_events strip rows = inr events →
    NoDup events.*1 ∧
    ∀ k e, (k, e) ∈ events ↔
      ∃ before row after,
        rows = before ++ row :: after ∧
        row !! "event_id" = Some k ∧
        (∀ r, r ∈ after → r !! "event_id" ≠ Some k) ∧
        built_from strip row e.
Proof.
  unfold load_events. split; [apply load_events_from_returns|]. split; [|split].
  - intros (row & Hin & Hrow)%load_events_from_raises.
    exists row. split; [done|]. by apply read_event_raises.
  - intros key (row & Hin & Hrow)%load_events_from_raises.
    exists row. split; [done|]. by apply read_event_raises.
  - intros events Hout.
    destruct (load_events_from_spec [] rows events) as [Hnd Hiff];
      [apply NoDup_nil_2|done|].
    split; [done|]. intros k e. rewrite Hiff. split; [|by right].
    by intros [[?%elem_of_nil _]|?].
Qed.

(** X3: [load_sales] fails as a whole exactly when the ticket count of some
    row does not parse; when it returns, it returns one record per row, in
    order, with the row's event id and minute and the parsed count. *)
Theorem load_sales_all_or_nothing rows :
  (load_sales int rows = None ↔
   ∃ row, row ∈ rows ∧ int (SalesCsv.tickets_sold_in_minute row) = None) ∧
  ∀ loaded, load_sales int rows = Some loaded →
    Forall2 (λ row r,
               Row.event_id r = SalesCsv.event_id row ∧
               Row.sales_minute r = SalesCsv.sales_minute row ∧
               int (SalesCsv.tickets_sold_in_minute row) = Some (Row.tickets r))
            rows loaded.
Proof.
  induction rows as [|row rows [IHnone IHsome]]; simpl.
  - split.
    + split; [done|]. intros (row & Hin & _). by apply elem_of_nil in Hin.
    + intros loaded [= <-]. constructor.
  - destruct (int (SalesCsv.tickets_sold_in_minute row)) as [tickets|] eqn:Hint.
    + destruct (load_sales int rows) as [loaded'|] eqn:Hload.
      * split.
        -- split; [done|]. intros (r & [->|Hin]%elem_of_cons & Hr); [congruence|].
           assert (Some loaded' = None) as Hn by (apply IHnone; by exists r).
           done.
        -- intros loaded [= <-]. constructor; [done|]. by apply IHsome.
      * split; [|done]. split; [|done]. intros _.
        destruct (proj1 IHnone eq_refl) as (r & Hin & Hr).
        exists r. split; [by right|done].
    + split; [|done]. split; [|done]. intros _. exists row. split; [left|done].
Qed.

End Loader.

(** ** The classifier and the linker, together *)
Section ClassifyAndLink.
Implicit Types (events concerts upsells : dict Event.t)
  (idx : gmap (string * string) string) (m : gmap string string).

Lemma filter_wf {V : Type} (P : string * V → Prop) `{∀ x, Decision (P x)}
    (d : dict V) :
  wf d → wf (filter P d).
Proof.
  unfold wf, keys. intros Hwf. eapply sublist_NoDup; [exact Hwf|].
  apply fmap_sublist, sublist_filter.
Qed.

(** X4: on an event dictionary, [classify_events] returns two dictionaries
    that keep the order of the events; an event is in the first exactly when
    it passes the name test and in the second exactly when it fails it, and
    every event id is a key of exactly one of the two. *)
Theorem classify_events_partition events :
  wf events →
  wf (classify_events events).1 ∧ wf (classify_events events).2 ∧
  (classify_events events).1 `sublist_of` events ∧
  (classify_events events).2 `sublist_of` events ∧
  (∀ eid e, (eid, e) ∈ (classify_events events).1 ↔
            (eid, e) ∈ events ∧ is_concert e = true) ∧
  (∀ eid e, (eid, e) ∈ (classify_events events).2 ↔
            (eid, e) ∈ events ∧ is_concert e = false) ∧
  (∀ eid, eid ∈ keys events ↔
          (eid ∈ keys (classify_events events).1 ∧
           eid ∉ keys (classify_events events).2) ∨
          (eid ∈ keys (classify_events events).2 ∧
           eid ∉ keys (classify_events events).1)).
Proof.
  intros Hwf.
  destruct (classify_events_disjoint events Hwf) as [Hwf2 Hdisj].
  rewrite Forall_forall in Hdisj.
  rewrite (classify_events_filter events Hwf) in *. simpl in *.
  split; [by apply filter_wf|]. split; [done|].
  split; [apply sublist_filter|]. split; [apply sublist_filter|].
  split; [|split].
  - intros eid e. rewrite list_elem_of_filter. simpl. tauto.
  - intros eid e. rewrite list_elem_of_filter. simpl. tauto.
  - intros eid. split.
    + intros ([k e] & -> & Hin)%list_elem_of_fmap. simpl.
      destruct (is_concert e) eqn:He.
      * left.
        assert (k ∈ keys (filter (λ item : string * Event.t,
                                    is_concert item.2 = true) events)) as Hk.
        { apply list_elem_of_fmap. exists (k, e). split; [done|].
          by apply list_elem_of_filter. }
        split; [done|]. by apply Hdisj.
      * right.
        assert (k ∈ keys (filter (λ item : string * Event.t,
                                    is_concert item.2 = false) events)) as Hk.
        { apply list_elem_of_fmap. exists (k, e). split; [done|].
          by apply list_elem_of_filter. }
        split; [done|]. intros Hc. by apply (Hdisj _ Hc).
    + intros [[Hk _]|[Hk _]]; by apply keys_filter_subseteq in Hk.
Qed.

Lemma link_fold_inv idx upsells m k v :
  fold_left (link_upsell idx) upsells m !! k = Some v →
  m !! k = Some v ∨ (k ∈ keys upsells ∧ ∃ key, idx !! key = Some v).
Proof.
  revert m. induction upsells as [|[uid u] l IH]; intros m Hk; [by left|].
  simpl in Hk. apply IH in Hk as [Hk|[Hin Hv]].
  - destruct (idx !! _) as [cid|] eqn:Hidx; [|by left].
    destruct (decide (uid = k)) as [->|Hne].
    + rewrite lookup_insert_eq in Hk. injection Hk as ->.
      right. split; [left|]. eauto.
    + rewrite lookup_insert_ne in Hk by done. by left.
  - right. split; [by right|done].
Qed.

(** X5: whatever the two dictionaries, every value of the mapping returned
    by [build_show_map] is a concert id, and every key is a concert id or an
    upsell id. *)
Theorem build_show_map_range concerts upsells eid cid :
  build_show_map concerts upsells !! eid = Some cid →
  cid ∈ keys concerts ∧ (eid ∈ keys concerts ∨ eid ∈ keys upsells).
Proof.
  unfold build_show_map. intros [Hself|[Hin (key & Hkey)]]%link_fold_inv.
  - rewrite self_map_lookup, lookup_empty in Hself.
    destruct (decide (eid ∈ keys concerts)); [|done].
    injection Hself as <-. auto.
  - apply index_concerts_inv in Hkey as (c & Hc & _).
    split; [|by right]. apply list_elem_of_fmap. by exists (cid, c).
Qed.

Lemma build_show_map_values concerts upsells eid cid :
  build_show_map concerts upsells !! eid = Some cid → cid ∈ keys concerts.
Proof.
  unfold build_show_map. intros [Hself|[Hin (key & Hkey)]]%link_fold_inv.
  - rewrite self_map_lookup, lookup_empty in Hself.
    destruct (decide (eid ∈ keys concerts)); [|done]. by injection Hself as <-.
  - apply index_concerts_inv in Hkey as (c & Hc & _).
    apply list_elem_of_fmap. by exists (cid, c).
Qed.

Lemma build_show_map_keys concerts upsells eid :
  is_Some (build_show_map concerts upsells !! eid) →
  eid ∈ keys concerts ∨ eid ∈ keys upsells.
Proof.
  unfold build_show_map. intros [cid [Hself|[Hin _]]%link_fold_inv]; [|by right].
  rewrite self_map_lookup, lookup_empty in Hself.
  destruct (decide (eid ∈ keys concerts)); [by left|done].
Qed.

Lemma build_show_map_concert concerts upsells cid :
  Forall (λ k, k ∉ keys upsells) (keys concerts) →
  cid ∈ keys concerts → build_show_map concerts upsells !! cid = Some cid.
Proof.
  intros Hdisj Hcid. unfold build_show_map.
  rewrite link_fold_other, self_map_lookup; [by rewrite decide_True|].
  rewrite Forall_forall in Hdisj. by apply Hdisj.
Qed.

Lemma linked_events_iff events eid :
  wf events →
  is_Some (build_show_map (classify_events events).1
                          (classify_events events).2 !! eid) ↔
  ∃ e, (eid, e) ∈ events ∧
       (is_concert e = true ∨
        ∃ cid c, (cid, c) ∈ events ∧ is_concert c = true ∧ vd c = vd e).
Proof.
  intros Hwf.
  destruct (classify_events_disjoint events Hwf) as [Hwf2 Hdisj].
  rewrite (classify_events_filter events Hwf) in *. simpl in *.
  set (cs := filter (λ item : string * Event.t, is_concert item.2 = true) events) in *.
  set (us := filter (λ item : string * Event.t, is_concert item.2 = false) events) in *.
  split.
  - intros Hsome. pose proof Hsome as [cid Hm].
    destruct (build_show_map_keys _ _ _ Hsome) as [Hin|Hin].
    + apply list_elem_of_fmap in Hin as ([k e] & -> & [He Hin]%list_elem_of_filter).
      exists e. auto.
    + apply list_elem_of_fmap in Hin as ([k e] & -> & Hin).
      pose proof Hin as [He Hin']%list_elem_of_filter. simpl in *.
      exists e. split; [done|]. right.
      rewrite (build_show_map_upsell _ _ _ _ Hwf2 Hdisj Hin) in Hm.
      apply index_concerts_inv in Hm as (c & [Hc Hcin]%list_elem_of_filter & Hvd).
      by exists cid, c.
  - intros (e & Hin & [He|(cid & c & Hcin & Hc & Hvd)]).
    + exists eid. apply build_show_map_concert; [done|].
      apply list_elem_of_fmap. exists (eid, e). split; [done|].
      by apply list_elem_of_filter.
    + destruct (is_concert e) eqn:He.
      * exists eid. apply build_show_map_concert; [done|].
        apply list_elem_of_fmap. exists (eid, e). split; [done|].
        by apply list_elem_of_filter.
      * assert ((eid, e) ∈ us) as Hu by (by apply list_elem_of_filter).
        rewrite (build_show_map_upsell _ _ _ _ Hwf2 Hdisj Hu).
        apply index_concerts_some. exists cid, c. split; [|done].
        by apply list_elem_of_filter.
Qed.

(** X6: classifying an event dictionary and then linking maps an event id
    exactly when its event is a concert, or is an event with the venue and
    date of some concert; every other id is absent from the mapping. *)
Theorem linked_events events eid :
  wf events →
  is_Some (build_show_map (classify_events events).1
                          (classify_events events).2 !! eid) ↔
  ∃ e, (eid, e) ∈ events ∧
       (is_concert e = true ∨
        ∃ cid c, (cid, c) ∈ events ∧ is_concert c = true ∧ vd c = vd e).
Proof. apply linked_events_iff. Qed.

Lemma last_match concerts key :
  (∃ cid c, (cid, c) ∈ concerts ∧ vd c = key) →
  ∃ l1 cid c l2, concerts = l1 ++ (cid, c) :: l2 ∧ vd c = key ∧
                 ∀ cid' c', (cid', c') ∈ l2 → vd c' ≠ key.
Proof.
  induction concerts as [|[k e] l IH] using rev_ind; intros (cid & c & Hin & Hc).
  - by apply elem_of_nil in Hin.
  - destruct (decide (vd e = key)) as [He|He].
    + exists l, k, e, []. split; [done|]. split; [done|].
      intros cid' c' Hnil. by apply elem_of_nil in Hnil.
    + destruct IH as (l1 & cid0 & c0 & l2 & -> & Hc0 & Hl2).
      { apply elem_of_app in Hin as [Hin|Hin]; [by eauto|].
        apply list_elem_of_singleton in Hin. congruence. }
      exists l1, cid0, c0, (l2 ++ [(k, e)]).
      split; [by rewrite <- app_assoc|]. split; [done|].
      intros cid' c' [Hin'|Hin']%elem_of_app; [by eapply Hl2|].
      apply list_elem_of_singleton in Hin'. congruence.
Qed.

(** The mapping sends to a concert that a later concert shadows nothing but
    the concert itself. *)
Lemma shadowed_concert_unlinked concerts upsells before cid c after eid :
  wf concerts → wf upsells →
  Forall (λ k, k ∉ keys upsells) (keys concerts) →
  concerts = before ++ (cid, c) :: after →
  (∃ cid' c', (cid', c') ∈ after ∧ vd c' = vd c) →
  build_show_map concerts upsells !! eid = Some cid → eid = cid.
Proof.
  intros Hwf Hwfu Hdisj Hsplit Hlater Hm.
  assert ((cid, c) ∈ concerts) as Hcin.
  { rewrite Hsplit. apply elem_of_app. right. left. }
  destruct (build_show_map_keys concerts upsells eid) as [Hin|Hin]; [by eexists| |].
  - rewrite (build_show_map_concert _ _ _ Hdisj Hin) in Hm. congruence.
  - exfalso. apply list_elem_of_fmap in Hin as ([k u] & -> & Hin). simpl in Hm.
    rewrite (build_show_map_upsell _ _ _ _ Hwfu Hdisj Hin) in Hm.
    pose proof Hm as (c0 & Hc0 & Hvd)%index_concerts_inv.
    assert (c0 = c) as -> by (by apply (dict_value_unique concerts cid)).
    destruct (last_match after (vd c) Hlater)
      as (a1 & cid2 & c2 & a2 & -> & Hc2 & Ha2).
    assert (index_concerts concerts !! vd c2 = Some cid2) as Hidx.
    { rewrite Hsplit. rewrite (app_comm_cons a1), app_assoc.
      apply index_concerts_last. intros cid' c' Hin'. rewrite Hc2. by eapply Ha2. }
    rewrite Hc2, Hvd, Hm in Hidx. injection Hidx as <-.
    unfold wf, keys in Hwf. rewrite Hsplit, fmap_app, fmap_cons in Hwf.
    apply NoDup_app in Hwf as (_ & _ & Hnd).
    apply NoDup_cons in Hnd as [Hfresh _].
    apply Hfresh. apply list_elem_of_fmap. exists (cid, c2). split; [done|].
    apply elem_of_app. right. left.
Qed.

End ClassifyAndLink.

(** ** More on stable sorting *)
Section SortedFacts.
Context {A : Type} (before : A → A → bool).
Hypothesis before_asym : ∀ a b, before a b = true → before b a = false.

Lemma insort_HdRel x y l :
  before y x = true →
  HdRel (λ a b, before b a = false) y l →
  HdRel (λ a b, before b a = false) y (insort before x l).
Proof.
  intros Hyx Hl. destruct l as [|z l]; simpl.
  - constructor. by apply before_asym.
  - destruct (before z x).
    + constructor. by inversion Hl.
    + constructor. by apply before_asym.
Qed.

Lemma insort_Sorted x l :
  Sorted (λ a b, before b a = false) l →
  Sorted (λ a b, before b a = false) (insort before x l).
Proof.
  induction 1 as [|y l Hl IH Hy]; simpl.
  - repeat constructor.
  - destruct (before y x) eqn:Hyx.
    + constructor; [exact IH|]. by apply insort_HdRel.
    + constructor; [by constructor|]. by constructor.
Qed.

(** No element of the result must come before its predecessor. *)
Lemma stable_sort_Sorted l :
  Sorted (λ a b, before b a = false) (stable_sort before l).
Proof.
  induction l as [|x l IH]; simpl; [constructor|]. by apply insort_Sorted.
Qed.

End SortedFacts.

Lemma Sorted_adjacent {A : Type} (R : relation A) (l : list A) i a b :
  Sorted R l → l !! i = Some a → l !! S i = Some b → R a b.
Proof.
  intros Hs. revert i. induction Hs as [|x l Hs IH Hx]; intros i Ha Hb; [done|].
  destruct i as [|i]; simpl in *.
  - injection Ha as ->. destruct l as [|y l]; [done|].
    simpl in Hb. injection Hb as ->. by inversion Hx.
  - by eapply IH.
Qed.

Lemma string_ltb_asym (s t : string) : String.ltb s t = true → String.ltb t s = false.
Proof.
  unfold String.ltb. rewrite (String.compare_antisym t s).
  by destruct (String.compare s t).
Qed.

Lemma string_ltb_irrefl (s : string) : String.ltb s s = false.
Proof.
  unfold String.ltb. pose proof (String.compare_antisym s s) as Hs.
  by destruct (String.compare s s).
Qed.

Lemma tuple_ltb_asym (a b : string * Z) : tuple_ltb a b = true → tuple_ltb b a = false.
Proof.
  unfold tuple_ltb. intros [Hlt|[Heq Hlt]%andb_true_iff]%orb_true_iff.
  - rewrite (string_ltb_asym _ _ Hlt). simpl.
    apply andb_false_iff. left. apply String.eqb_neq. intros Hba.
    rewrite Hba in Hlt. by rewrite string_ltb_irrefl in Hlt.
  - apply String.eqb_eq in Heq. rewrite Heq, string_ltb_irrefl, String.eqb_refl.
    simpl. apply Z.ltb_ge. apply Z.ltb_lt in Hlt. lia.
Qed.

Section Stability.
Context {A : Type} (key : A → Z).

Lemma insort_filter_key x l v :
  filter (λ y, key y = v) (insort (λ a b, key b <? key a) x l) =
  filter (λ y, key y = v) (x :: l).
Proof.
  induction l as [|y l IH]; simpl; [done|].
  destruct (key x <? key y) eqn:Hxy; [|done].
  apply Z.ltb_lt in Hxy.
  rewrite (filter_cons _ y), IH, !filter_cons.
  destruct (decide (key y = v)), (decide (key x = v)); try done. lia.
Qed.

(** Elements with the same key leave the sort in the order they came in. *)
Lemma sort_key_reverse_stable l v :
  filter (λ y, key y = v) (sort_key_reverse key l) = filter (λ y, key y = v) l.
Proof.
  unfold sort_key_reverse, stable_sort.
  induction l as [|x l IH]; simpl; [done|].
  by rewrite insort_filter_key, !filter_cons, IH.
Qed.

End Stability.

Lemma sumZ_if_filter {A : Type} (f : A → Z) (P : A → Prop)
    `{∀ x, Decision (P x)} (l : list A) :
  sumZ (λ x, if bool_decide (P x) then f x else 0) l = sumZ f (filter P l).
Proof.
  induction l as [|x l IH]; [done|].
  rewrite filter_cons, sumZ_cons, IH.
  case_bool_decide; destruct (decide (P x)); try done; rewrite ?sumZ_cons; lia.
Qed.

Lemma sumZ_filter_split {A : Type} (f : A → Z) (P : A → Prop)
    `{∀ x, Decision (P x)} (l : list A) :
  sumZ f l = sumZ f (filter P l) + sumZ f (filter (λ x, ¬ P x) l).
Proof.
  induction l as [|x l IH]; [done|].
  rewrite !filter_cons, sumZ_cons, IH.
  destruct (decide (P x)), (decide (¬ P x)); rewrite ?sumZ_cons; try lia; tauto.
Qed.

Lemma filter_ext_in {A : Type} (P Q : A → Prop)
    `{∀ x, Decision (P x)} `{∀ x, Decision (Q x)} (l : list A) :
  (∀ x, x ∈ l → P x ↔ Q x) → filter P l = filter Q l.
Proof.
  induction l as [|x l IH]; intros HPQ; [done|].
  rewrite !filter_cons, IH by (intros y Hy; apply HPQ; by right).
  destruct (decide (P x)), (decide (Q x)); try done;
    exfalso; specialize (HPQ x); rewrite elem_of_cons in HPQ; tauto.
Qed.

Lemma fl_proper `{F : Float} (x y : Q) : (x == y)%Q → (fl x == fl y)%Q.
Proof.
  intros Hxy. apply Qle_antisym; apply fl_mono; apply Qle_lteq; right;
    [done|by symmetry].
Qed.

(** ** More on the aggregator *)
Section AggregatorMore.
Context `{F : Float}.
Implicit Types (m : gmap string string) (rows : list Row.t)
  (concerts events : dict Event.t).

Lemma record_sale_timeseries m acc row cid :
  default [] (show_timeseries (record_sale m acc row) !! cid) =
  default [] (show_timeseries acc !! cid) ++ credited_sales m cid [row].
Proof.
  unfold record_sale, credited_sales, append_to.
  destruct (m !! Row.event_id row) as [c|] eqn:Hm.
  - cbn [show_timeseries]. destruct (decide (c = cid)) as [->|Hne].
    + rewrite lookup_insert_eq. by rewrite filter_cons_True by done.
    + rewrite lookup_insert_ne by done.
      rewrite filter_cons_False by congruence. by rewrite app_nil_r.
  - rewrite filter_cons_False by congruence. by rewrite app_nil_r.
Qed.

Lemma fold_timeseries m rows acc cid :
  default [] (show_timeseries (fold_left (record_sale m) rows acc) !! cid) =
  default [] (show_timeseries acc !! cid) ++ credited_sales m cid rows.
Proof.
  revert acc. induction rows as [|row rows IH]; intros acc.
  - by rewrite app_nil_r.
  - cbn [fold_left]. rewrite IH, record_sale_timeseries, <- app_assoc.
    f_equal. unfold credited_sales. by rewrite <- fmap_app, <- filter_app.
Qed.

Lemma timeseries_total m rows cid :
  default [] (show_timeseries (fold_left (record_sale m) rows no_sales) !! cid) =
  credited_sales m cid rows.
Proof. rewrite fold_timeseries. simpl. by rewrite lookup_empty. Qed.

Lemma show_of_ids acc concerts :
  Show.concert_id <$> (show_of acc <$> concerts) = keys concerts.
Proof. unfold keys. by rewrite <- list_fmap_compose. Qed.

Lemma show_of_timeseries_sum m rows item :
  sumZ snd (Show.timeseries (show_of (fold_left (record_sale m) rows no_sales) item)) =
  Show.total_tickets (show_of (fold_left (record_sale m) rows no_sales) item).
Proof.
  unfold show_of; simpl.
  rewrite timeseries_total, concert_tix_total, upsell_tix_total.
  unfold sorted. rewrite (sumZ_perm _ _ _ (stable_sort_perm _ _)).
  unfold credited_sales. rewrite sumZ_fmap. simpl.
  rewrite <- sumZ_plus, <- sumZ_if_filter.
  apply sumZ_ext. intros row. by rewrite credit_part.
Qed.

(** X7: [concert_tickets] of a show is the sum of the ticket counts of the
    rows of the concert itself that the mapping sends to it, and
    [upsell_tickets] the sum over the rows of other events that the mapping
    sends to it. *)
Theorem show_totals_by_event rows m concerts events :
  ∃ shows, aggregate_show_sales rows m concerts events = Ok shows ∧
    ∀ s, s ∈ shows →
      Show.concert_tickets s =
        sumZ Row.tickets
          (filter (λ row, m !! Row.event_id row = Some (Show.concert_id s) ∧
                          Row.event_id row = Show.concert_id s) rows) ∧
      Show.upsell_tickets s =
        sumZ Row.tickets
          (filter (λ row, m !! Row.event_id row = Some (Show.concert_id s) ∧
                          Row.event_id row ≠ Show.concert_id s) rows).
Proof.
  eexists. split; [apply aggregate_show_sales_eq|].
  intros s Hs. rewrite sort_key_reverse_perm in Hs.
  apply list_elem_of_fmap in Hs as ([cid c] & -> & _).
  unfold show_of; simpl.
  rewrite concert_tix_total, upsell_tix_total, <- !sumZ_if_filter.
  split; apply sumZ_ext; intros row;
    unfold concert_part, upsell_part, credited;
    destruct (String.eqb_spec (Row.event_id row) cid);
    repeat case_bool_decide; simpl; try done; tauto.
Qed.

(** X8: the time series of a show is a rearrangement of the (minute, tickets)
    pairs of the rows that the mapping sends to the show, and it is in
    ascending order: no entry is smaller than the one before it. *)
Theorem timeseries_sorted_sales rows m concerts events :
  ∃ shows, aggregate_show_sales rows m concerts events = Ok shows ∧
    ∀ s, s ∈ shows →
      Show.timeseries s ≡ₚ credited_sales m (Show.concert_id s) rows ∧
      (∀ i a b, Show.timeseries s !! i = Some a →
                Show.timeseries s !! S i = Some b →
                tuple_ltb b a = false).
Proof.
  eexists. split; [apply aggregate_show_sales_eq|].
  intros s Hs. rewrite sort_key_reverse_perm in Hs.
  apply list_elem_of_fmap in Hs as ([cid c] & -> & _).
  unfold show_of; simpl. rewrite timeseries_total. split.
  - apply stable_sort_perm.
  - intros i a b Ha Hb.
    eapply (Sorted_adjacent (λ a b, tuple_ltb b a = false)); [|exact Ha|exact Hb].
    apply stable_sort_Sorted, tuple_ltb_asym.
Qed.

(** X9: the ticket counts in the time series of a show add up to its
    [total_tickets]. *)
Theorem timeseries_adds_up rows m concerts events :
  ∃ shows, aggregate_show_sales rows m concerts events = Ok shows ∧
    ∀ s, s ∈ shows → sumZ snd (Show.timeseries s) = Show.total_tickets s.
Proof.
  eexists. split; [apply aggregate_show_sales_eq|].
  intros s Hs. rewrite sort_key_reverse_perm in Hs.
  apply list_elem_of_fmap in Hs as (item & -> & _).
  apply show_of_timeseries_sum.
Qed.

(** X10: shows with the same [total_tickets] come out in the iteration order
    of the concert dictionary. *)
Theorem ties_keep_concert_order rows m concerts events :
  ∃ shows, aggregate_show_sales rows m concerts events = Ok shows ∧
    ∀ v, Show.concert_id <$> filter (λ s, Show.total_tickets s = v) shows
         `sublist_of` keys concerts.
Proof.
  eexists. split; [apply aggregate_show_sales_eq|].
  intros v. rewrite sort_key_reverse_stable.
  rewrite <- (show_of_ids (fold_left (record_sale m) rows no_sales) concerts).
  apply fmap_sublist, sublist_filter.
Qed.

(** X11: the concert ids of the returned shows are the keys of the concert
    dictionary, rearranged, and every show carries the venue, date and name
    of its concert. *)
Theorem shows_are_the_concerts rows m concerts events :
  ∃ shows, aggregate_show_sales rows m concerts events = Ok shows ∧
    Show.concert_id <$> shows ≡ₚ keys concerts ∧
    ∀ s, s ∈ shows →
      ∃ c, (Show.concert_id s, c) ∈ concerts ∧
           Show.venue_id s = Event.venue_id c ∧
           Show.event_dt s = Event.event_dt c ∧
           Show.concert_name s = Event.name c.
Proof.
  eexists. split; [apply aggregate_show_sales_eq|]. split.
  - rewrite sort_key_reverse_perm. by rewrite show_of_ids.
  - intros s Hs. rewrite sort_key_reverse_perm in Hs.
    apply list_elem_of_fmap in Hs as ([cid c] & -> & Hin).
    exists c. by simpl.
Qed.

(** X12: a show without upsell tickets has [upsell_pct] zero, so it is not
    among the shows that the figures and the summary count as having
    upsells ([upsell_pct > 0]). *)
Theorem no_upsell_tickets_zero_pct rows m concerts events :
  ∃ shows, aggregate_show_sales rows m concerts events = Ok shows ∧
    ∀ s, s ∈ shows → Show.upsell_tickets s = 0 → (Show.upsell_pct s == 0)%Q.
Proof.
  eexists. split; [apply aggregate_show_sales_eq|].
  intros s Hs. rewrite sort_key_reverse_perm in Hs.
  apply list_elem_of_fmap in Hs as (item & -> & _).
  unfold show_of; simpl. intros ->.
  set (t := (_ + 0)%Z). destruct (0 <? t); [|done].
  assert (fl (inject_Z 0 / inject_Z t) == 0)%Q as H0.
  { etrans; [|apply fl_0]. apply fl_proper. unfold Qdiv. apply Qmult_0_l. }
  etrans; [|apply fl_0]. apply fl_proper. rewrite H0. apply Qmult_0_l.
Qed.

(** X13: [main], from an event dictionary: there are as many shows as
    events that pass the name test, and every ticket of the sale rows is
    either in the total of a show or on a row that the mapping does not
    know. *)
Theorem main_accounts_for_tickets events sales :
  wf events →
  ∃ shows ranked, main events sales = Ok (shows, ranked) ∧
    length shows = length (filter (λ item, is_concert item.2 = true) events) ∧
    sumZ Row.tickets sales =
      sumZ Show.total_tickets shows +
      sumZ Row.tickets
        (filter (λ row, build_show_map (classify_events events).1
                          (classify_events events).2 !! Row.event_id row = None)
                sales).
Proof.
  intros Hwf. unfold main.
  pose proof (classify_events_filter events Hwf) as Hcl.
  destruct (classify_events events) as [cs us] eqn:Hcu. simpl.
  injection Hcl as -> ->.
  set (cs := filter (λ item : string * Event.t, is_concert item.2 = true) events).
  set (us := filter (λ item : string * Event.t, is_concert item.2 = false) events).
  destruct (total_equals_resolved sales (build_show_map cs us) cs events
              (filter_wf _ _ Hwf))
    as (shows & Hok & Hsum).
  exists shows, (get_top_bottom shows 2). rewrite Hok. simpl.
  split; [done|]. split.
  - rewrite aggregate_show_sales_eq in Hok. injection Hok as <-.
    by rewrite sort_key_reverse_perm, length_fmap.
  - rewrite Hsum.
    rewrite (sumZ_filter_split Row.tickets
               (λ row, resolves (build_show_map cs us) cs row = true) sales).
    f_equal. f_equal. apply filter_ext_in. intros row _.
    unfold resolves.
    destruct (build_show_map cs us !! Row.event_id row) as [cid|] eqn:Hm.
    + apply build_show_map_values in Hm.
      rewrite bool_decide_eq_true_2 by done. split; [tauto|done].
    + split; [done|]. intros _. done.
Qed.

End AggregatorMore.

(** ** More on the ranker *)
Section RankerMore.
Implicit Types (shows : list Show.t) (n : Z).

(** X14: for [n >= 0] the top list has [min(n, k)] shows, where [k] counts
    the shows with sales; so has the bottom list, except for [n = 0], where
    it is all [k] shows with sales. *)
Theorem get_top_bottom_lengths shows n :
  0 ≤ n →
  length (get_top_bottom shows n).1 =
    Nat.min (Z.to_nat n) (length (with_sales shows)) ∧
  length (get_top_bottom shows n).2 =
    (if n =? 0 then length (with_sales shows)
     else Nat.min (Z.to_nat n) (length (with_sales shows))).
Proof.
  intros Hn. unfold get_top_bottom, slice_to, slice_from. simpl.
  rewrite (proj2 (Z.leb_le 0 n)) by done. split; [apply length_take|].
  destruct (Z.eqb_spec n 0) as [->|Hne].
  - simpl. by rewrite drop_0.
  - rewrite (proj2 (Z.leb_gt 0 (- n))) by lia.
    rewrite length_drop. lia.
Qed.

(** X15: when at least [2 n] shows have sales ([n > 0]), the shows with
    sales are the top list, then some shows, then the bottom list: the two
    lists have [n] shows each and do not overlap. *)
Theorem get_top_bottom_split shows n :
  0 < n → 2 * n ≤ Z.of_nat (length (with_sales shows)) →
  ∃ middle,
    with_sales shows =
      (get_top_bottom shows n).1 ++ middle ++ (get_top_bottom shows n).2 ∧
    length (get_top_bottom shows n).1 = Z.to_nat n ∧
    length (get_top_bottom shows n).2 = Z.to_nat n.
Proof.
  intros Hn Hlen. unfold get_top_bottom, slice_to, slice_from. simpl.
  set (ws := with_sales shows) in *.
  rewrite (proj2 (Z.leb_le 0 n)) by lia.
  rewrite (proj2 (Z.leb_gt 0 (- n))) by lia.
  set (k := Z.to_nat (Z.of_nat (length ws) + - n)).
  exists (drop (Z.to_nat n) (take k ws)).
  rewrite app_assoc.
  replace (take (Z.to_nat n) ws) with (take (Z.to_nat n) (take k ws))
    by (rewrite take_take; f_equal; lia).
  rewrite take_drop, take_drop. split; [done|].
  rewrite take_take, length_take, length_drop. lia.
Qed.

(** X16: when at most [n] shows have sales ([n > 0]), the top list and the
    bottom list are both the whole list of shows with sales. *)
Theorem get_top_bottom_overlap shows n :
  0 < n → Z.of_nat (length (with_sales shows)) ≤ n →
  get_top_bottom shows n = (with_sales shows, with_sales shows).
Proof.
  intros Hn Hlen. unfold get_top_bottom, slice_to, slice_from.
  set (ws := with_sales shows) in *.
  rewrite (proj2 (Z.leb_le 0 n)) by lia.
  rewrite (proj2 (Z.leb_gt 0 (- n))) by lia.
  rewrite take_ge by lia.
  replace (Z.to_nat (Z.of_nat (length ws) + - n)) with 0%nat by lia.
  by rewrite drop_0.
Qed.

(** X17: for every [n], negative ones included, the two lists select shows
    of the input in their input order, and no show of the top list has zero
    sales. *)
Theorem get_top_bottom_selects shows n :
  (get_top_bottom shows n).1 `sublist_of` shows ∧
  (get_top_bottom shows n).2 `sublist_of` shows ∧
  (∀ s, s ∈ (get_top_bottom shows n).1 → 0 < Show.total_tickets s).
Proof.
  unfold get_top_bottom, slice_to, slice_from. simpl.
  set (ws := with_sales shows).
  assert (ws `sublist_of` shows) as Hws by apply sublist_filter.
  split; [|split].
  - trans ws; [|done]. destruct (0 <=? n); apply sublist_take.
  - trans ws; [|done]. destruct (0 <=? - n); apply sublist_drop.
  - intros s Hs.
    assert (s ∈ ws) as Hin.
    { eapply elem_of_sublist; [exact Hs|]. destruct (0 <=? n); apply sublist_take. }
    by apply list_elem_of_filter in Hin as [? _].
Qed.

Lemma StronglySorted_head {A : Type} (R : relation A) (l : list A) t s :
  StronglySorted R l → head l = Some t → s ∈ l → s = t ∨ R t s.
Proof.
  intros Hs Ht Hin. destruct l as [|x l]; [done|]. simpl in Ht. injection Ht as ->.
  apply StronglySorted_inv in Hs as [_ Hx]. rewrite Forall_forall in Hx.
  apply elem_of_cons in Hin as [->|Hin]; [by left|right; by apply Hx].
Qed.

Lemma StronglySorted_last {A : Type} (R : relation A) (l : list A) b s :
  StronglySorted R l → last l = Some b → s ∈ l → s = b ∨ R s b.
Proof.
  intros Hs Hb Hin. apply last_Some in Hb as (l' & ->).
  apply elem_of_app in Hin as [Hin|Hin].
  - right. eapply StronglySorted_app_1_elem_of; [exact Hs|done|left].
  - left. by apply list_elem_of_singleton in Hin.
Qed.

Lemma ranked_head shows n :
  0 < n → head (get_top_bottom shows n).1 = head (with_sales shows).
Proof.
  intros Hn. unfold get_top_bottom, slice_to. simpl.
  rewrite (proj2 (Z.leb_le 0 n)) by lia.
  destruct (with_sales shows) as [|x ws]; [by rewrite take_nil|].
  destruct (Z.to_nat n) eqn:Hk; [lia|done].
Qed.

Lemma ranked_last shows n :
  0 < n → last (get_top_bottom shows n).2 = last (with_sales shows).
Proof.
  intros Hn. unfold get_top_bottom, slice_from. simpl.
  rewrite (proj2 (Z.leb_gt 0 (- n))) by lia.
  set (ws := with_sales shows).
  set (k := Z.to_nat (Z.of_nat (length ws) + - n)).
  rewrite <- (take_drop k ws) at 2. rewrite last_app.
  destruct (last (drop k ws)) eqn:Hlast; [done|].
  apply last_None in Hlast.
  assert (length (drop k ws) = 0%nat) as Hlen by (by rewrite Hlast).
  rewrite length_drop in Hlen.
  assert (length ws = 0%nat) as Hws by lia.
  destruct ws; [|done]. by rewrite take_nil.
Qed.

Lemma ranked_extremes shows n t b :
  StronglySorted (descending Show.total_tickets) shows →
  0 < n →
  head (get_top_bottom shows n).1 = Some t →
  last (get_top_bottom shows n).2 = Some b →
  (∀ s, s ∈ shows → Show.total_tickets s ≤ Show.total_tickets t) ∧
  (∀ s, s ∈ shows → 0 < Show.total_tickets s →
        Show.total_tickets b ≤ Show.total_tickets s) ∧
  0 < Show.total_tickets b ∧ Show.total_tickets b ≤ Show.total_tickets t.
Proof.
  intros Hshows Hn. rewrite ranked_head, ranked_last by done.
  set (ws := with_sales shows). intros Ht Hb.
  assert (StronglySorted (descending Show.total_tickets) ws) as Hsorted.
  { eapply StronglySorted_sublist; [apply sublist_filter|exact Hshows]. }
  assert (t ∈ ws) as Htin by (by apply head_Some_elem_of).
  assert (b ∈ ws) as Hbin by (by apply last_Some_elem_of).
  assert (0 < Show.total_tickets t) as Htpos
    by (by apply list_elem_of_filter in Htin as [? _]).
  assert (∀ s, s ∈ shows → 0 < Show.total_tickets s →
               Show.total_tickets b ≤ Show.total_tickets s) as Hmin.
  { intros s Hs Hpos.
    assert (s ∈ ws) as Hsin by (by apply list_elem_of_filter).
    destruct (StronglySorted_last _ _ _ _ Hsorted Hb Hsin) as [->|Hr]; [lia|done]. }
  split; [|split; [done|split]].
  - intros s Hs. destruct (decide (0 < Show.total_tickets s)) as [Hpos|Hnpos]; [|lia].
    assert (s ∈ ws) as Hsin by (by apply list_elem_of_filter).
    destruct (StronglySorted_head _ _ _ _ Hsorted Ht Hsin) as [->|Hr]; [lia|done].
  - by apply list_elem_of_filter in Hbin as [? _].
  - apply Hmin; [|done]. by apply list_elem_of_filter in Htin as [_ ?].
Qed.

End RankerMore.

Section RankedShows.
Context `{F : Float}.

(** X18: on the shows that the aggregator returns, for [n > 0], the first
    show of the top list has the largest [total_tickets] of all shows, and
    the last show of the bottom list has the smallest among the shows with
    sales, which is positive and at most that of the first top show. *)
Theorem top_and_bottom_extremes rows m concerts events :
  ∃ shows, aggregate_show_sales rows m concerts events = Ok shows ∧
    ∀ n t b, 0 < n →
      head (get_top_bottom shows n).1 = Some t →
      last (get_top_bottom shows n).2 = Some b →
      (∀ s, s ∈ shows → Show.total_tickets s ≤ Show.total_tickets t) ∧
      (∀ s, s ∈ shows → 0 < Show.total_tickets s →
            Show.total_tickets b ≤ Show.total_tickets s) ∧
      0 < Show.total_tickets b ∧ Show.total_tickets b ≤ Show.total_tickets t.
Proof.
  eexists. split; [apply aggregate_show_sales_eq|].
  intros n t b. apply ranked_extremes, sort_key_reverse_sorted.
Qed.

(** X19: in [main], reading [top[0]] or [bottom[-1]] for the ratio of
    insight 1 fails exactly when no show has sales; otherwise the ratio is
    computed without a division by zero and is at least 1. *)
Theorem insight_ratio_of_main events sales :
  ∃ shows top bottom,
    main events sales = Ok (shows, (top, bottom)) ∧
    (insight_ratio top bottom = None ↔
     ∀ s, s ∈ shows → Show.total_tickets s ≤ 0) ∧
    (∀ r, insight_ratio top bottom = Some r → ∃ q, r = Ok q ∧ (1 <= q)%Q).
Proof.
  unfold main. destruct (classify_events events) as [cs us].
  rewrite aggregate_show_sales_eq. simpl.
  set (shows := sort_key_reverse _ _).
  exists shows, (get_top_bottom shows 2).1, (get_top_bottom shows 2).2.
  split; [done|].
  assert (StronglySorted (descending Show.total_tickets) shows) as Hsorted
    by apply sort_key_reverse_sorted.
  pose proof (ranked_extremes shows 2) as Hext.
  unfold insight_ratio.
  rewrite ranked_head, ranked_last in * by lia.
  split.
  - split.
    + intros Hnone s Hs.
      destruct (decide (0 < Show.total_tickets s)) as [Hpos|]; [|lia].
      assert (s ∈ with_sales shows) as Hin by (by apply list_elem_of_filter).
      destruct (head (with_sales shows)) as [t|] eqn:Ht.
      * destruct (last (with_sales shows)) as [b|] eqn:Hb; [done|].
        apply last_None in Hb. by rewrite Hb in Ht.
      * apply head_None in Ht. rewrite Ht in Hin. by apply elem_of_nil in Hin.
    + intros Hall.
      rewrite (filter_none _ shows); [done|].
      intros s Hs Hpos. specialize (Hall s Hs). lia.
  - intros r Hr.
    destruct (head (with_sales shows)) as [t|] eqn:Ht; [|done].
    destruct (last (with_sales shows)) as [b|] eqn:Hb; [|done].
    injection Hr as <-.
    destruct (Hext t b Hsorted) as (_ & _ & Hbpos & Hbt); [lia|done|done|].
    rewrite (proj2 (Z.eqb_neq _ 0)) by lia.
    unfold truediv. rewrite (proj2 (Z.eqb_neq _ 0)) by lia.
    eexists. split; [done|].
    apply Qle_trans with (fl 1).
    { apply Qle_lteq. right. symmetry. apply fl_1. }
    apply fl_mono. apply Qle_shift_div_l.
    + unfold Qlt; simpl; lia.
    + rewrite Qmult_1_l. by rewrite <- Zle_Qle.
Qed.

End RankedShows.

(** ** The cumulative series *)
Section Cumulative.
Context {T : Type}.
Implicit Types (ts_data : list (T * Z)).

Lemma cumulative_fold ts_data running acc :
  fold_left (λ '(running, cumulative) '(_, v),
               (running + v, cumulative ++ [running + v]))
            ts_data (running, acc) =
  (running + sumZ snd ts_data, acc ++ running_totals running ts_data).
Proof.
  revert running acc. induction ts_data as [|[t v] l IH]; intros running acc.
  - simpl. by rewrite Z.add_0_r, app_nil_r.
  - cbn [fold_left]. rewrite IH, sumZ_cons. simpl.
    rewrite <- app_assoc. f_equal. lia.
Qed.

Lemma cumulative_running_totals ts_data :
  cumulative ts_data = running_totals 0 ts_data.
Proof. unfold cumulative. by rewrite cumulative_fold. Qed.

Lemma running_totals_lookup ts_data running i :
  (i < length ts_data)%nat →
  running_totals running ts_data !! i =
  Some (running + sumZ snd (take (S i) ts_data)).
Proof.
  revert running i. induction ts_data as [|[t v] l IH]; intros running i Hi.
  - simpl in Hi. lia.
  - destruct i as [|i]; simpl.
    + f_equal. unfold sumZ. simpl. lia.
    + simpl in Hi. rewrite IH by lia. f_equal.
      unfold sumZ. simpl. lia.
Qed.

Lemma running_totals_length ts_data running :
  length (running_totals running ts_data) = length ts_data.
Proof.
  revert running. induction ts_data as [|[t v] l IH]; intros running; simpl; [done|].
  by rewrite IH.
Qed.

(** X20: the loop of [fig2_cumulative_timeseries] yields one value per
    entry of the series, and the value at position [i] is the sum of the
    ticket counts of the entries up to and including [i]. *)
Theorem cumulative_prefix_sums ts_data :
  length (cumulative ts_data) = length ts_data ∧
  ∀ i, (i < length ts_data)%nat →
       cumulative ts_data !! i = Some (sumZ snd (take (S i) ts_data)).
Proof.
  rewrite cumulative_running_totals. split; [apply running_totals_length|].
  intros i Hi. by rewrite running_totals_lookup.
Qed.

Lemma cumulative_last ts_data :
  ts_data ≠ [] → last (cumulative ts_data) = Some (sumZ snd ts_data).
Proof.
  intros Hne. rewrite last_lookup, cumulative_running_totals, running_totals_length.
  assert (0 < length ts_data)%nat by (destruct ts_data; [done|simpl; lia]).
  rewrite running_totals_lookup by lia.
  replace (S (pred (length ts_data))) with (length ts_data) by lia.
  by rewrite take_ge.
Qed.

End Cumulative.

Section CumulativeShows.
Context `{F : Float}.

(** X21: for a show with a non-empty time series, the cumulative curve that
    fig. 2 draws ends at the show's [total_tickets], in whatever order the
    entries are put after their timestamps are parsed. *)
Theorem cumulative_ends_at_total rows m concerts events :
  ∃ shows, aggregate_show_sales rows m concerts events = Ok shows ∧
    ∀ s (T : Type) (ts_data : list (T * Z)),
      s ∈ shows → Show.timeseries s ≠ [] →
      ts_data.*2 ≡ₚ (Show.timeseries s).*2 →
      last (cumulative ts_data) = Some (Show.total_tickets s).
Proof.
  eexists. split; [apply aggregate_show_sales_eq|].
  intros s T ts_data Hs Hne Hperm. rewrite sort_key_reverse_perm in Hs.
  apply list_elem_of_fmap in Hs as (item & -> & _).
  rewrite <- show_of_timeseries_sum.
  rewrite cumulative_last.
  - f_equal.
    transitivity (sumZ id ts_data.*2); [by rewrite sumZ_fmap|].
    rewrite (sumZ_perm _ _ _ Hperm). by rewrite sumZ_fmap.
  - intros ->. apply Permutation_nil_l in Hperm.
    symmetry in Hperm. by apply fmap_nil_inv in Hperm.
Qed.

End CumulativeShows.

(** ** More on the venue chart query *)
Section VenueChartMore.
Import UpsellRateByVenueChart.
Context `{R : Real}.

Lemma concert_sales_venues events ticket_sales :
  NoDup (ConcertSales.venue_id <$> concert_sales events ticket_sales).
Proof.
  unfold concert_sales. rewrite <- list_fmap_compose.
  rewrite (list_fmap_ext _ id _ (λ _ _ _, eq_refl)).
  rewrite list_fmap_id. apply NoDup_remove_dups.
Qed.

Lemma upsell_sales_venues events ticket_sales :
  NoDup (UpsellSales.venue_id <$> upsell_sales events ticket_sales).
Proof.
  unfold upsell_sales. rewrite <- list_fmap_compose.
  rewrite (list_fmap_ext _ id _ (λ _ _ _, eq_refl)).
  rewrite list_fmap_id. apply NoDup_remove_dups.
Qed.

Lemma filter_at_most_one {A B : Type} `{EqDecision B} (f : A → B) (l : list A) (v : B) :
  NoDup (f <$> l) → (length (filter (λ x, f x = v) l) ≤ 1)%nat.
Proof.
  induction l as [|x l IH]; intros Hnd; [simpl; lia|].
  rewrite fmap_cons in Hnd. apply NoDup_cons in Hnd as [Hx Hnd].
  rewrite filter_cons. destruct (decide (f x = v)) as [<-|Hne]; [|by apply IH].
  rewrite filter_none; [simpl; lia|].
  intros y Hy Hfy. apply Hx. apply list_elem_of_fmap. by exists y.
Qed.

(** The join keeps every row of [concert_sales] once. *)
Lemma left_join_fst (css : list ConcertSales.t) (uss : list UpsellSales.t) :
  NoDup (UpsellSales.venue_id <$> uss) → (left_join css uss).*1 = css.
Proof.
  intros Hnd. unfold left_join.
  induction css as [|cs css IH]; [done|].
  rewrite bind_cons, fmap_app, IH.
  pose proof (filter_at_most_one UpsellSales.venue_id uss
                (ConcertSales.venue_id cs) Hnd) as Hlen.
  destruct (filter _ uss) as [|us [|us' rest]]; simpl in *; [done|done|lia].
Qed.

Lemma select_venue (r : ConcertSales.t * option UpsellSales.t) :
  Out.venue_id (select r) = ConcertSales.venue_id r.1.
Proof. by destruct r. Qed.

(** X22: the result of the query has one row per venue: no venue_id occurs
    twice. *)
Theorem query_one_row_per_venue events ticket_sales :
  NoDup (Out.venue_id <$> query events ticket_sales).
Proof.
  unfold query. rewrite stable_sort_perm, <- list_fmap_compose.
  rewrite (list_fmap_ext _ (ConcertSales.venue_id ∘ fst) _
             (λ _ r _, select_venue r)).
  rewrite list_fmap_compose.
  eapply sublist_NoDup; [apply (concert_sales_venues events ticket_sales)|].
  apply fmap_sublist.
  rewrite <- (left_join_fst (concert_sales events ticket_sales)
                            (upsell_sales events ticket_sales))
    at 2 by apply upsell_sales_venues.
  apply fmap_sublist, sublist_filter.
Qed.

Lemma null_ltb_asym (a b : option Q) : null_ltb a b = true → null_ltb b a = false.
Proof.
  destruct a as [x|], b as [y|]; simpl; try done.
  intros Hxy. apply negb_true_iff in Hxy. apply negb_false_iff.
  apply Qle_bool_iff. destruct (Qlt_le_dec y x) as [Hlt|Hle]; [|done].
  apply Qlt_le_weak in Hlt. apply Qle_bool_iff in Hlt. congruence.
Qed.

Lemma order_by_asym (a b : Out.t) : order_by a b = true → order_by b a = false.
Proof.
  unfold order_by. intros [Hlt|[Heq Hr]%andb_true_iff]%orb_true_iff.
  - apply Z.ltb_lt in Hlt. apply orb_false_iff. split.
    + apply Z.ltb_ge. lia.
    + apply andb_false_iff. left. apply Z.eqb_neq. lia.
  - apply Z.eqb_eq in Heq. rewrite Heq, Z.ltb_irrefl, Z.eqb_refl. simpl.
    by apply null_ltb_asym.
Qed.

(** X23: consecutive rows of the result are in the order of the [ORDER BY]
    clause: [upsell_options] does not increase, and between rows with equal
    [upsell_options] the rate does not increase. *)
Theorem query_ordered events ticket_sales i a b :
  query events ticket_sales !! i = Some a →
  query events ticket_sales !! S i = Some b →
  Out.upsell_options b ≤ Out.upsell_options a ∧
  (Out.upsell_options a = Out.upsell_options b →
   ∀ qa qb, Out.upsell_rate_pct a = Some qa → Out.upsell_rate_pct b = Some qb →
            (qb <= qa)%Q).
Proof.
  intros Ha Hb.
  assert (order_by b a = false) as Hord.
  { eapply (Sorted_adjacent (λ a b, order_by b a = false)); [|exact Ha|exact Hb].
    apply stable_sort_Sorted, order_by_asym. }
  unfold order_by in Hord. apply orb_false_iff in Hord as [Hlt Heq].
  apply Z.ltb_ge in Hlt. split; [done|].
  intros Hopts qa qb Hqa Hqb.
  rewrite Hopts, Z.eqb_refl, Hqa, Hqb in Heq. simpl in Heq.
  apply negb_false_iff in Heq. by apply Qle_bool_iff.
Qed.

(** A row of [upsell_sales] totals a non-empty group of joined sales. *)
Lemma upsell_sales_elem events ticket_sales u :
  u ∈ upsell_sales events ticket_sales →
  ∃ sold : list (string * Z),
    (∀ p, p ∈ sold → ∃ mu ts, mu ∈ matched_upsells events ∧ ts ∈ ticket_sales ∧
          MatchedUpsells.event_id mu = TicketSales.event_id ts ∧
          MatchedUpsells.venue_id mu = UpsellSales.venue_id u ∧
          p = (MatchedUpsells.event_name mu, TicketSales.tickets_sold_in_minute ts)) ∧
    sold ≠ [] ∧
    UpsellSales.upsell_tickets u = sql_sum sold.*2 ∧
    UpsellSales.upsell_options u = Z.of_nat (length (remove_dups sold.*1)).
Proof.
  unfold upsell_sales.
  set (joined := mbind _ (matched_upsells events)).
  intros (v & -> & Hv)%list_elem_of_fmap. simpl.
  exists (filter (λ r, r.1 = v) joined).*2. split; [|split; [|done]].
  - intros p ([v' p'] & -> & [Hv' Hin]%list_elem_of_filter)%list_elem_of_fmap.
    simpl in *. subst v'.
    apply list_elem_of_bind in Hin as (mu & Hin & Hmu).
    apply list_elem_of_bind in Hin as (ts & Hin & Hts).
    destruct (String.eqb_spec (MatchedUpsells.event_id mu) (TicketSales.event_id ts));
      [|by apply elem_of_nil in Hin].
    apply list_elem_of_singleton in Hin. injection Hin as -> ->.
    by exists mu, ts.
  - unfold group_keys in Hv. rewrite elem_of_remove_dups in Hv.
    apply list_elem_of_fmap in Hv as ([v' p] & -> & Hin). simpl.
    intros Hnil. apply fmap_nil_inv in Hnil.
    eapply (filter_nil_not_elem_of _ _ (v', p)); [exact Hnil|done|exact Hin].
Qed.

Lemma sql_sum_nonneg (l : list Z) : (∀ x, x ∈ l → 0 ≤ x) → 0 ≤ sql_sum l.
Proof.
  induction l as [|x l IH]; intros Hl; simpl; [done|].
  assert (0 ≤ x) by (apply Hl; left).
  assert (0 ≤ sql_sum l) by (apply IH; intros; apply Hl; by right).
  unfold sql_sum in *. lia.
Qed.



Lemma real_nonneg (x : Q) : (0 <= x)%Q → (0 <= real x)%Q.
Proof.
  intros Hx. apply Qle_trans with (real 0); [|by apply real_mono].
  apply Qle_lteq. right. symmetry. apply real_0.
Qed.

(** A count of at least one converts to a positive [REAL]. *)
Lemma real_of_int_pos (n : Z) : 0 < n → (0 < real_of_int n)%Q.
Proof.
  intros Hn. unfold real_of_int.
  assert (1 <= inject_Z n)%Q as H1 by (unfold Qle; simpl; lia).
  pose proof (real_error _ H1) as Herr.
  assert (0 < inject_Z n * (1 - (1 # 9007199254740992)))%Q by lra.
  lra.
Qed.


(** X25: every row of the result has a rate; it is not negative when no
    ticket count is negative, and it is at least 100 when the venue sold at
    least as many upsell tickets as concert tickets, so that, unlike
    [upsell_pct], it is not bounded by 100. *)
Theorem upsell_rate_bounds events ticket_sales row :
  row ∈ query events ticket_sales →
  ∃ q, Out.upsell_rate_pct row = Some q ∧
    ((∀ ts, ts ∈ ticket_sales → 0 ≤ TicketSales.tickets_sold_in_minute ts) →
     (0 <= q)%Q) ∧
    (Out.concert_tickets row ≤ Out.upsell_tickets row → (100 <= q)%Q).
Proof.
  intros (cs & us & -> & Hjoin & Hpos)%query_elem.
  rewrite (select_rate (cs, us)) by done. eexists. split; [done|].
  unfold rate_of_concert_tickets.
  set (ut := Out.upsell_tickets (select (cs, us))).
  change (Out.concert_tickets (select (cs, us))) with (ConcertSales.concert_tickets cs).
  set (ct := ConcertSales.concert_tickets cs) in *.
  pose proof (real_of_int_pos ct Hpos) as Hb. unfold real_of_int in Hb.
  set (b := real (inject_Z ct)) in *.
  split.
  - intros Hsales.
    assert (0 ≤ ut) as Hut.
    { unfold ut. simpl. apply left_join_elem in Hjoin as [_ Hus].
      destruct us as [u|]; simpl; [|done]. destruct Hus as [Hu _].
      apply upsell_sales_elem in Hu as (sold & Hsold & _ & -> & _).
      apply sql_sum_nonneg.
      intros x ([name t] & -> & Hp)%list_elem_of_fmap.
      destruct (Hsold _ Hp) as (mu & ts & _ & Hts & _ & _ & Heq).
      injection Heq as _ ->. simpl. by apply Hsales. }
    apply round2_nonneg, real_nonneg.
    apply Qle_shift_div_l; [done|]. rewrite Qmult_0_l.
    apply real_nonneg, Qmult_le_0_compat; [|done].
    apply real_nonneg. unfold Qle; simpl; lia.
  - intros Hle. apply round2_100.
    assert (1 <= inject_Z ct)%Q as Hct1 by (unfold Qle; simpl; lia).
    assert (inject_Z ct <= inject_Z ut)%Q as Hctut by (by rewrite <- Zle_Qle).
    pose proof (real_mono _ _ Hctut) as Hab. fold b in Hab.
    set (a := real (inject_Z ut)) in *.
    set (eps := (1 - (1 # 9007199254740992))%Q).
    assert (eps <= b)%Q as Hb1.
    { apply Qle_trans with (inject_Z ct * eps)%Q; [unfold eps; lra|].
      by apply real_error. }
    assert (1 <= a * 100)%Q as Ha1 by (unfold eps in Hb1; lra).
    pose proof (real_error _ Ha1) as Hp. fold eps in Hp.
    set (p := real (a * 100)) in *.
    assert (100 * eps <= p / b)%Q as Hq.
    { apply Qle_shift_div_l; [done|].
      apply Qle_trans with (a * 100 * eps)%Q; [|done].
      assert (0 <= eps)%Q by (unfold eps; lra).
      assert (b * eps <= a * eps)%Q by (by apply Qmult_le_compat_r).
      lra. }
    assert (1 <= p / b)%Q as Hq1 by (unfold eps in Hq; lra).
    pose proof (real_error _ Hq1) as Hr. fold eps in Hr.
    apply Qle_trans with (p / b * eps)%Q; [|done].
    apply Qle_trans with (100 * eps * eps)%Q; [unfold eps; lra|].
    apply Qmult_le_compat_r; [done|unfold eps; lra].
Qed.

End VenueChartMore.

(** ** The linker and the aggregator, together *)
Section LinkAndAggregate.
Context `{F : Float}.
Implicit Types (rows : list Row.t) (concerts upsells events : dict Event.t).

(** X26: when a later concert of the dictionary has the venue and date of an
    earlier one, the show of the earlier concert gets no upsell tickets: the
    upsells at that venue and date all go to the later concert. *)
Theorem shadowed_concert_gets_no_upsells rows concerts upsells events
    before cid c after :
  wf concerts → wf upsells →
  Forall (λ k, k ∉ keys upsells) (keys concerts) →
  concerts = before ++ (cid, c) :: after →
  (∃ cid' c', (cid', c') ∈ after ∧ vd c' = vd c) →
  ∃ shows,
    aggregate_show_sales rows (build_show_map concerts upsells) concerts events
      = Ok shows ∧
    ∀ s, s ∈ shows → Show.concert_id s = cid → Show.upsell_tickets s = 0.
Proof.
  intros Hwf Hwfu Hdisj Hsplit Hlater.
  eexists. split; [apply aggregate_show_sales_eq|].
  intros s Hs Hid. rewrite sort_key_reverse_perm in Hs.
  apply list_elem_of_fmap in Hs as ([k e] & -> & _). simpl in *. subst k.
  rewrite upsell_tix_total. apply sumZ_zero. intros row _.
  unfold upsell_part, credited. case_bool_decide as Hm; [|done].
  rewrite (shadowed_concert_unlinked _ _ _ _ _ _ _ Hwf Hwfu Hdisj Hsplit Hlater Hm).
  by rewrite String.eqb_refl.
Qed.

(** X27: in [main], a sale row for an event id that is not in the event
    dictionary, or for an event that is no concert and shares venue and date
    with no concert, changes nothing: the shows and the two ranked lists are
    those computed without the row. *)
Theorem main_ignores_unlinked_sales events l1 row l2 :
  wf events →
  ¬ (∃ e, (Row.event_id row, e) ∈ events ∧
          (is_concert e = true ∨
           ∃ cid c, (cid, c) ∈ events ∧ is_concert c = true ∧ vd c = vd e)) →
  main events (l1 ++ row :: l2) = main events (l1 ++ l2).
Proof.
  intros Hwf Hunlinked.
  assert (build_show_map (classify_events events).1 (classify_events events).2
            !! Row.event_id row = None) as Hm.
  { apply eq_None_not_Some. by rewrite linked_events_iff. }
  unfold main. destruct (classify_events events) as [cs us]. simpl in Hm.
  rewrite !aggregate_show_sales_eq, !fold_left_app. simpl.
  by rewrite (record_sale_unmapped _ _ _ Hm).
Qed.

End LinkAndAggregate.

(** ** The further statements on the sample data *)

Lemma main_sample :
  main (F := exact_arith) ex_events ex_rows =
  Ok ([ex_show_A; ex_show_D], ([ex_show_A], [ex_show_A])).
Proof. vm_compute. reflexivity. Qed.

Lemma ex_events_wf : wf ex_events.
Proof. compute_done. Qed.

Lemma is_concert_iff_witness :
  is_concert {| Event.name := "Neon Harbor - Super Awesome Tour";
                Event.venue_id := "1"; Event.event_dt := "2024-01-01T20:00" |} = true.
Proof.
  apply is_concert_iff. exists "neon harbor - ", EmptyString. reflexivity.
Defined.

Lemma load_events_sample :
  load_events (λ s, s) ex_csv_events =
  inr [ (Some "A", {| Loaded.name := "Neon Harbor - Super Awesome Tour";
                      Loaded.venue_id := Some "1";
                      Loaded.event_dt := Some "2024-01-01T20:00" |});
        (Some "B", {| Loaded.name := "VIP Lounge";
                      Loaded.venue_id := None; Loaded.event_dt := None |}) ].
Proof. vm_compute. reflexivity. Qed.

Lemma load_events_last_row_wins_witness :
  (Some "A", {| Loaded.name := "Neon Harbor - Super Awesome Tour";
                Loaded.venue_id := Some "1";
                Loaded.event_dt := Some "2024-01-01T20:00" |})
  ∈ [ (Some "A", {| Loaded.name := "Neon Harbor - Super Awesome Tour";
                    Loaded.venue_id := Some "1";
                    Loaded.event_dt := Some "2024-01-01T20:00" |});
      (Some "B", {| Loaded.name := "VIP Lounge";
                    Loaded.venue_id := None; Loaded.event_dt := None |}) ].
Proof.
  destruct (load_events_last_row_wins (λ s, s) ex_csv_events) as (_ & _ & _ & Hret).
  destruct (Hret _ load_events_sample) as [_ Hiff].
  apply Hiff.
  exists (take 2 ex_csv_events),
         (ex_csv_row "A" "Neon Harbor - Super Awesome Tour" (Some "1")
                     (Some "2024-01-01T20:00")),
         [].
  split; [reflexivity|]. split; [reflexivity|]. split.
  - intros r Hr. by apply elem_of_nil in Hr.
  - exists "Neon Harbor - Super Awesome Tour". repeat split; reflexivity.
Defined.

Lemma load_sales_all_or_nothing_witness : load_sales ex_int ex_csv_sales = None.
Proof.
  destruct (load_sales_all_or_nothing ex_int ex_csv_sales) as [Hnone _].
  apply Hnone.
  exists {| SalesCsv.event_id := "B"; SalesCsv.sales_minute := "m2";
            SalesCsv.tickets_sold_in_minute := "seven" |}.
  split; [right; left|reflexivity].
Defined.

Lemma classify_events_partition_witness :
  ("B", {| Event.name := "VIP Lounge"; Event.venue_id := "1";
           Event.event_dt := "2024-01-01T20:00" |})
  ∈ (classify_events ex_events).2.
Proof.
  destruct (classify_events_partition ex_events) as (_ & _ & _ & _ & _ & Hup & _).
  { compute_done. }
  apply Hup. split; [right; left|reflexivity].
Defined.

Lemma build_show_map_range_witness :
  "A" ∈ keys ex_concerts ∧ ("B" ∈ keys ex_concerts ∨ "B" ∈ keys ex_upsells).
Proof.
  apply (build_show_map_range ex_concerts ex_upsells "B" "A").
  vm_compute. reflexivity.
Defined.

Lemma linked_events_witness :
  is_Some (build_show_map (classify_events ex_events).1
                          (classify_events ex_events).2 !! "B").
Proof.
  apply linked_events; [compute_done|].
  exists {| Event.name := "VIP Lounge"; Event.venue_id := "1";
            Event.event_dt := "2024-01-01T20:00" |}.
  split; [right; left|]. right.
  exists "A", {| Event.name := "Neon Harbor - Super Awesome Tour";
                 Event.venue_id := "1"; Event.event_dt := "2024-01-01T20:00" |}.
  split; [left|]. split; reflexivity.
Defined.

Lemma show_totals_by_event_witness :
  Show.concert_tickets ex_show_A =
    sumZ Row.tickets
      (filter (λ row, ex_map !! Row.event_id row = Some (Show.concert_id ex_show_A) ∧
                      Row.event_id row = Show.concert_id ex_show_A) ex_rows) ∧
  Show.upsell_tickets ex_show_A =
    sumZ Row.tickets
      (filter (λ row, ex_map !! Row.event_id row = Some (Show.concert_id ex_show_A) ∧
                      Row.event_id row ≠ Show.concert_id ex_show_A) ex_rows).
Proof.
  destruct (show_totals_by_event (F := exact_arith)
              ex_rows ex_map ex_concerts ex_events) as (shows & Hshows & Hprop).
  rewrite aggregate_sample in Hshows. injection Hshows as <-.
  apply Hprop. left.
Defined.

Lemma timeseries_sorted_sales_witness :
  Show.timeseries ex_show_A ≡ₚ credited_sales ex_map "A" ex_rows.
Proof.
  destruct (timeseries_sorted_sales (F := exact_arith)
              ex_rows ex_map ex_concerts ex_events) as (shows & Hshows & Hprop).
  rewrite aggregate_sample in Hshows. injection Hshows as <-.
  destruct (Hprop ex_show_A) as [Hperm _]; [left|]. exact Hperm.
Defined.

Lemma timeseries_adds_up_witness :
  sumZ snd (Show.timeseries ex_show_A) = Show.total_tickets ex_show_A.
Proof.
  destruct (timeseries_adds_up (F := exact_arith)
              ex_rows ex_map ex_concerts ex_events) as (shows & Hshows & Hprop).
  rewrite aggregate_sample in Hshows. injection Hshows as <-.
  apply Hprop. left.
Defined.

Lemma ties_keep_concert_order_witness :
  Show.concert_id <$> filter (λ s, Show.total_tickets s = 35) [ex_show_A; ex_show_D]
  `sublist_of` keys ex_concerts.
Proof.
  destruct (ties_keep_concert_order (F := exact_arith)
              ex_rows ex_map ex_concerts ex_events) as (shows & Hshows & Hprop).
  rewrite aggregate_sample in Hshows. injection Hshows as <-.
  apply Hprop.
Defined.

Lemma shows_are_the_concerts_witness :
  ∃ c, (Show.concert_id ex_show_A, c) ∈ ex_concerts ∧
       Show.venue_id ex_show_A = Event.venue_id c ∧
       Show.event_dt ex_show_A = Event.event_dt c ∧
       Show.concert_name ex_show_A = Event.name c.
Proof.
  destruct (shows_are_the_concerts (F := exact_arith)
              ex_rows ex_map ex_concerts ex_events) as (shows & Hshows & _ & Hprop).
  rewrite aggregate_sample in Hshows. injection Hshows as <-.
  apply Hprop. left.
Defined.

Lemma no_upsell_tickets_zero_pct_witness : (Show.upsell_pct ex_show_D == 0)%Q.
Proof.
  destruct (no_upsell_tickets_zero_pct (F := exact_arith)
              ex_rows ex_map ex_concerts ex_events) as (shows & Hshows & Hprop).
  rewrite aggregate_sample in Hshows. injection Hshows as <-.
  apply Hprop; [right; left|reflexivity].
Defined.

Lemma main_accounts_for_tickets_witness :
  ∃ shows ranked,
    main (F := exact_arith) ex_events ex_rows = Ok (shows, ranked) ∧
    length shows = length (filter (λ item, is_concert item.2 = true) ex_events) ∧
    sumZ Row.tickets ex_rows =
      sumZ Show.total_tickets shows +
      sumZ Row.tickets
        (filter (λ row, build_show_map (classify_events ex_events).1
                          (classify_events ex_events).2 !! Row.event_id row = None)
                ex_rows).
Proof. apply main_accounts_for_tickets. compute_done. Defined.

Lemma get_top_bottom_lengths_witness :
  length (get_top_bottom [ex_show_A; ex_show_D] 2).1 =
    Nat.min (Z.to_nat 2) (length (with_sales [ex_show_A; ex_show_D])) ∧
  length (get_top_bottom [ex_show_A; ex_show_D] 2).2 =
    (if 2 =? 0 then length (with_sales [ex_show_A; ex_show_D])
     else Nat.min (Z.to_nat 2) (length (with_sales [ex_show_A; ex_show_D]))).
Proof. apply get_top_bottom_lengths. lia. Defined.

Lemma get_top_bottom_split_witness :
  ∃ middle,
    with_sales [ex_show_A; ex_show_A] =
      (get_top_bottom [ex_show_A; ex_show_A] 1).1 ++ middle ++
      (get_top_bottom [ex_show_A; ex_show_A] 1).2 ∧
    length (get_top_bottom [ex_show_A; ex_show_A] 1).1 = Z.to_nat 1 ∧
    length (get_top_bottom [ex_show_A; ex_show_A] 1).2 = Z.to_nat 1.
Proof. apply get_top_bottom_split; [lia|compute_done]. Defined.

Lemma get_top_bottom_overlap_witness :
  get_top_bottom [ex_show_A; ex_show_D] 2 =
  (with_sales [ex_show_A; ex_show_D], with_sales [ex_show_A; ex_show_D]).
Proof. apply get_top_bottom_overlap; [lia|compute_done]. Defined.

Lemma get_top_bottom_selects_witness : 0 < Show.total_tickets ex_show_A.
Proof.
  destruct (get_top_bottom_selects [ex_show_A; ex_show_D] 2) as (_ & _ & Hpos).
  apply Hpos. left.
Defined.

Lemma top_and_bottom_extremes_witness :
  (∀ s, s ∈ [ex_show_A; ex_show_D] →
        Show.total_tickets s ≤ Show.total_tickets ex_show_A) ∧
  (∀ s, s ∈ [ex_show_A; ex_show_D] → 0 < Show.total_tickets s →
        Show.total_tickets ex_show_A ≤ Show.total_tickets s) ∧
  0 < Show.total_tickets ex_show_A ∧
  Show.total_tickets ex_show_A ≤ Show.total_tickets ex_show_A.
Proof.
  destruct (top_and_bottom_extremes (F := exact_arith)
              ex_rows ex_map ex_concerts ex_events) as (shows & Hshows & Hprop).
  rewrite aggregate_sample in Hshows. injection Hshows as <-.
  apply (Hprop 2 ex_show_A ex_show_A); [lia|reflexivity|reflexivity].
Defined.

Lemma insight_ratio_of_main_witness :
  ∃ q, insight_ratio (F := exact_arith) [ex_show_A] [ex_show_A] = Some (Ok q) ∧
       (1 <= q)%Q.
Proof.
  destruct (insight_ratio_of_main (F := exact_arith) ex_events ex_rows)
    as (shows & top & bottom & Hmain & _ & Hratio).
  rewrite main_sample in Hmain. injection Hmain as <- <- <-.
  destruct (Hratio (Ok (35 # 35))) as (q & Hq & Hle); [reflexivity|].
  exists q. split; [|done]. by rewrite <- Hq.
Defined.

Lemma cumulative_prefix_sums_witness :
  cumulative [("m1", 5); ("m1", 20); ("m2", 10)] !! 2%nat =
  Some (sumZ snd (take 3 [("m1", 5); ("m1", 20); ("m2", 10)])).
Proof.
  destruct (cumulative_prefix_sums [("m1", 5); ("m1", 20); ("m2", 10)]) as [_ Hat].
  apply Hat. simpl. lia.
Defined.

Lemma cumulative_ends_at_total_witness :
  last (cumulative (Show.timeseries ex_show_A)) = Some (Show.total_tickets ex_show_A).
Proof.
  destruct (cumulative_ends_at_total (F := exact_arith)
              ex_rows ex_map ex_concerts ex_events) as (shows & Hshows & Hprop).
  rewrite aggregate_sample in Hshows. injection Hshows as <-.
  apply Hprop; [left|discriminate|reflexivity].
Defined.

Lemma shadowed_concert_gets_no_upsells_witness :
  ∃ shows,
    aggregate_show_sales (F := exact_arith) [ex_row "A" "m1" 10; ex_row "B" "m1" 5]
      (build_show_map ex_twin_concerts ex_twin_upsells) ex_twin_concerts [] = Ok shows ∧
    ∀ s, s ∈ shows → Show.concert_id s = "A" → Show.upsell_tickets s = 0.
Proof.
  apply (shadowed_concert_gets_no_upsells _ _ _ _
           [] "A" (ex_twin_event "Super Awesome Tour")
           [("A2", ex_twin_event "Super Awesome Tour, late")]).
  - compute_done.
  - compute_done.
  - compute_done.
  - reflexivity.
  - exists "A2", (ex_twin_event "Super Awesome Tour, late"). split; [left|reflexivity].
Defined.

Lemma main_ignores_unlinked_sales_witness :
  main (F := exact_arith) ex_events ex_rows =
  main (F := exact_arith) ex_events
    [ ex_row "A" "m2" 10; ex_row "B" "m1" 5; ex_row "C" "m1" 7; ex_row "A" "m1" 20 ].
Proof.
  apply (main_ignores_unlinked_sales ex_events
           [ ex_row "A" "m2" 10; ex_row "B" "m1" 5; ex_row "C" "m1" 7 ]
           (ex_row "Z" "m1" 9) [ ex_row "A" "m1" 20 ]).
  - compute_done.
  - assert (¬ ("Z" ∈ keys ex_events)) as Hn by compute_done.
    intros (e & Hin & _). apply Hn. apply list_elem_of_fmap. by exists ("Z", e).
Defined.

Section VenueChartSampleMore.
Import UpsellRateByVenueChart.

Lemma query_sample2 :
  query (R := exact_real) ex_table2_events ex_table2_sales = [ex_out; ex_out2].
Proof. vm_compute. reflexivity. Qed.

Lemma query_one_row_per_venue_witness :
  NoDup (Out.venue_id <$> query (R := exact_real) ex_table2_events ex_table2_sales).
Proof. apply query_one_row_per_venue. Defined.

Lemma query_ordered_witness :
  Out.upsell_options ex_out2 ≤ Out.upsell_options ex_out ∧
  (Out.upsell_options ex_out = Out.upsell_options ex_out2 →
   ∀ qa qb, Out.upsell_rate_pct ex_out = Some qa →
            Out.upsell_rate_pct ex_out2 = Some qb → (qb <= qa)%Q).
Proof.
  apply (query_ordered (R := exact_real) ex_table2_events ex_table2_sales 0%nat);
    rewrite query_sample2; reflexivity.
Defined.


Lemma upsell_rate_bounds_witness :
  ∃ q, Out.upsell_rate_pct ex_out = Some q ∧ (0 <= q)%Q.
Proof.
  destruct (upsell_rate_bounds (R := exact_real) ex_table_events ex_table_sales ex_out)
    as (q & Hq & Hnonneg & _).
  { rewrite query_sample. left. }
  exists q. split; [done|]. apply Hnonneg.
  apply Forall_forall. compute_done.
Defined.

End VenueChartSampleMore.
